(** * LogiMint: the pattern-matching core (utils/pattern_matcher.py)

    A shallow embedding of [config/patterns.py] and [utils/pattern_matcher.py]
    together with the regular-expression matcher and the sequence matcher
    they call, and the properties of the case-code extractor, the alias
    resolver and the similarity score.

    Text.  A Python [str] is modelled as a list of characters ([str] below).
    The development covers text over the ASCII repertoire: characters are
    Rocq [ascii] values, the letters, digits and white space are those of
    ASCII, and a character above 127 is an uncased symbol outside every
    class.  On such text [unicodedata.normalize("NFKC", .)] is the identity,
    [str.lower], [str.upper], [str.title] and [str.strip] act on the ASCII
    letters and on Python's ASCII white space (9-13, 28-32). *)

From Stdlib Require Import String.
From Stdlib Require Import List Ascii Arith Bool Lia PeanoNat ZArith.
From Stdlib Require Import Sorting.Sorted Sorting.Permutation.
Import ListNotations.

(** ** Characters and strings *)

Module Text.

Definition str := list ascii.

(** String literals of the source are written [L "..."]. *)
Definition L (s : string) : str := list_ascii_of_string s.
Arguments L s%_string.

Definition code (c : ascii) : nat := nat_of_ascii c.

Definition is_upper (c : ascii) : bool := (65 <=? code c) && (code c <=? 90).
Definition is_lower (c : ascii) : bool := (97 <=? code c) && (code c <=? 122).
Definition is_alpha (c : ascii) : bool := is_upper c || is_lower c.
Definition is_digit (c : ascii) : bool := (48 <=? code c) && (code c <=? 57).

(** [str.isspace] on one character: Python's ASCII white space. *)
Definition is_space (c : ascii) : bool :=
  ((9 <=? code c) && (code c <=? 13)) || ((28 <=? code c) && (code c <=? 32)).

Definition to_lower (c : ascii) : ascii :=
  if is_upper c then ascii_of_nat (code c + 32) else c.
Definition to_upper (c : ascii) : ascii :=
  if is_lower c then ascii_of_nat (code c - 32) else c.

(** [s.lower()], [s.upper()] *)
Definition lower (s : str) : str := map to_lower s.
Definition upper (s : str) : str := map to_upper s.

(** [s.strip()]: white space removed at both ends. *)
Fixpoint lstrip (s : str) : str :=
  match s with
  | c :: t => if is_space c then lstrip t else s
  | [] => []
  end.
Definition rstrip (s : str) : str := rev (lstrip (rev s)).
Definition strip (s : str) : str := rstrip (lstrip s).

(** [s.title()]: a cased character is upper-cased when the character before
    it is not cased, lower-cased otherwise. *)
Fixpoint title_from (previous_is_cased : bool) (s : str) : str :=
  match s with
  | [] => []
  | c :: t =>
      (if previous_is_cased then to_lower c else to_upper c)
        :: title_from (is_alpha c) t
  end.
Definition title (s : str) : str := title_from false s.

(** Equality and the order of [str]: code points compared left to right, a
    proper prefix is smaller. *)
Definition ch_eqb (a b : ascii) : bool := code a =? code b.

Fixpoint str_eqb (a b : str) : bool :=
  match a, b with
  | [], [] => true
  | x :: a', y :: b' => ch_eqb x y && str_eqb a' b'
  | _, _ => false
  end.

Fixpoint str_ltb (a b : str) : bool :=
  match a, b with
  | _, [] => false
  | [], _ :: _ => true
  | x :: a', y :: b' =>
      if code x <? code y then true
      else if code y <? code x then false
      else str_ltb a' b'
  end.

Definition str_leb (a b : str) : bool := negb (str_ltb b a).

(** [unicodedata.normalize("NFKC", s)], on ASCII text. *)
Definition nfkc (s : str) : str := s.

End Text.
Import Text.

(** ** Exceptions *)

Inductive exn : Type :=
| KeyError (key : str)
| PatternMatchError (msg : str)
| AttributeError.

Inductive result (A : Type) : Type :=
| Ok (a : A)
| Raise (e : exn).
Arguments Ok {A} a.
Arguments Raise {A} e.

Definition bind {A B : Type} (m : result A) (k : A -> result B) : result B :=
  match m with
  | Ok a => k a
  | Raise e => Raise e
  end.

Notation "x <- m ;; k" := (bind m (fun x => k))
  (at level 61, m at next level, right associativity).

(** ** Regular expressions (the part of [re] the registry uses) *)

Module Re.

Inductive cset_item : Type :=
| CChar (c : ascii)
| CRange (lo hi : ascii)
| CDigit                        (* \d *)
| CSpace.                       (* \s *)
Arguments CChar c%_char.
Arguments CRange (lo hi)%_char.

Inductive regex : Type :=
| Empty
| Lit (c : ascii)
| Any                                        (* .  (no DOTALL) *)
| In_ (negate : bool) (items : list cset_item)
| Cat (r1 r2 : regex)
| Rep (greedy : bool) (lo : nat) (hi : option nat) (r : regex)
| Group (n : nat) (r : regex).               (* n-th capturing group *)

(** A compiled pattern: the expression and the IGNORECASE flag. *)
Record pattern : Type := Compile { rx : regex; ignorecase : bool }.

Definition item_mem (ch : ascii) (i : cset_item) : bool :=
  match i with
  | CChar c => ch_eqb ch c
  | CRange lo hi => (code lo <=? code ch) && (code ch <=? code hi)
  | CDigit => is_digit ch
  | CSpace => is_space ch
  end.

Definition set_mem (ic : bool) (items : list cset_item) (ch : ascii) : bool :=
  existsb (item_mem ch) items
  || (ic && (existsb (item_mem (to_lower ch)) items
             || existsb (item_mem (to_upper ch)) items)).

Definition lit_match (ic : bool) (c ch : ascii) : bool :=
  if ic then ch_eqb (to_lower ch) (to_lower c) else ch_eqb ch c.

(** Captures: the text of each group, the latest binding first. *)
Definition caps := list (nat * str).
Definition outcome : Type := str * caps.

(** The text consumed between [s] and its suffix [rest]. *)
Definition consumed (s rest : str) : str := firstn (length s - length rest) s.

(** The backtracking search, as the list of its outcomes in the order the
    matcher tries them: the head is the match [re] reports.  A repetition
    tries one more iteration first when greedy, stops first when lazy; an
    iteration has to consume a character (every repeated body of the
    registry does). *)
Fixpoint rep_run (body : str -> caps -> list outcome) (greedy : bool)
    (fuel lo : nat) (hi : option nat) (s : str) (c : caps) : list outcome :=
  let stop := if lo =? 0 then [(s, c)] else [] in
  match fuel with
  | 0 => stop
  | S fuel' =>
      let more :=
        match hi with
        | Some 0 => []
        | _ =>
            flat_map
              (fun o : outcome =>
                 if length (fst o) <? length s
                 then rep_run body greedy fuel' (pred lo) (option_map pred hi)
                        (fst o) (snd o)
                 else [])
              (body s c)
        end in
      if greedy then more ++ stop else stop ++ more
  end.

Fixpoint run (ic : bool) (r : regex) (s : str) (c : caps) : list outcome :=
  match r with
  | Empty => [(s, c)]
  | Lit a =>
      match s with
      | ch :: t => if lit_match ic a ch then [(t, c)] else []
      | [] => []
      end
  | Any =>
      match s with
      | ch :: t => if code ch =? 10 then [] else [(t, c)]
      | [] => []
      end
  | In_ negate items =>
      match s with
      | ch :: t => if xorb negate (set_mem ic items ch) then [(t, c)] else []
      | [] => []
      end
  | Cat r1 r2 => flat_map (fun o : outcome => run ic r2 (fst o) (snd o)) (run ic r1 s c)
  | Rep greedy lo hi r1 => rep_run (run ic r1) greedy (length s) lo hi s c
  | Group n r1 =>
      map (fun o : outcome => (fst o, (n, consumed s (fst o)) :: snd o))
          (run ic r1 s c)
  end.

(** A match object: [group(0)] and the captures. *)
Record match_obj : Type := Match { m_text : str; m_caps : caps }.

Fixpoint cap_get (n : nat) (c : caps) : option str :=
  match c with
  | [] => None
  | (k, v) :: c' => if k =? n then Some v else cap_get n c'
  end.

(** [m.group(n)]; a group that did not take part yields the empty text, as
    in the results of [findall]. *)
Definition group (n : nat) (m : match_obj) : str :=
  match n with
  | 0 => m_text m
  | _ => match cap_get n (m_caps m) with Some v => v | None => [] end
  end.

(** [pattern.match] at the start of [s]: the match and the text after it. *)
Definition match_at (p : pattern) (s : str) : option (match_obj * str) :=
  match run (ignorecase p) (rx p) s [] with
  | [] => None
  | (rest, c) :: _ => Some (Match (consumed s rest) c, rest)
  end.

(** [pattern.finditer(s)]: the non-overlapping matches, left to right.  The
    scan resumes where a match ended, one character further after a failure
    or an empty match. *)
Fixpoint scan (p : pattern) (fuel : nat) (s : str) : list match_obj :=
  match fuel with
  | 0 => []
  | S fuel' =>
      let next := match s with [] => [] | _ :: t => scan p fuel' t end in
      match match_at p s with
      | Some (m, rest) =>
          m :: (if length rest <? length s then scan p fuel' rest else next)
      | None => next
      end
  end.

Definition finditer (p : pattern) (s : str) : list match_obj :=
  scan p (S (length s)) s.

(** The number of capturing groups. *)
Fixpoint groups (r : regex) : nat :=
  match r with
  | Cat r1 r2 => groups r1 + groups r2
  | Rep _ _ _ r1 => groups r1
  | Group _ r1 => S (groups r1)
  | _ => 0
  end.

(** [pattern.findall(s)] for a pattern with at most one group: the whole
    match, or the text of the only group. *)
Definition findall (p : pattern) (s : str) : list str :=
  map (group (groups (rx p))) (finditer p s).

(** [pattern.findall(s)] for a pattern with several groups: the tuple of
    the groups' texts. *)
Definition findall_tuples (p : pattern) (s : str) : list (list str) :=
  map (fun m => map (fun n => group n m) (seq 1 (groups (rx p)))) (finditer p s).

(** Pattern syntax. *)
Fixpoint lit (s : str) : regex :=
  match s with
  | [] => Empty
  | [c] => Lit c
  | c :: t => Cat (Lit c) (lit t)
  end.

Fixpoint cat (rs : list regex) : regex :=
  match rs with
  | [] => Empty
  | [r] => r
  | r :: rs' => Cat r (cat rs')
  end.

Definition plus (r : regex) : regex := Rep true 1 None r.
Definition star (r : regex) : regex := Rep true 0 None r.
Definition opt (r : regex) : regex := Rep true 0 (Some 1) r.
Definition A_Z : cset_item := CRange "A" "Z".
Definition d0_9 : cset_item := CRange "0" "9".
Definition digit : regex := In_ false [CDigit].
Definition space : regex := In_ false [CSpace].

End Re.
Import Re.

(** ** difflib.SequenceMatcher

    [SequenceMatcher(a=..., b=...)] as [score_similarity] builds it: [isjunk]
    is [None], so no element is junk, and [autojunk] is on. *)

Module Difflib.

Definition count (c : ascii) (l : str) : nat := length (filter (ch_eqb c) l).

Fixpoint indices_from (c : ascii) (b : str) (i : nat) : list nat :=
  match b with
  | [] => []
  | x :: t =>
      if ch_eqb x c then i :: indices_from c t (S i) else indices_from c t (S i)
  end.

(** [bjunk] is empty. *)
Definition isbjunk (c : ascii) : bool := false.

(** [bpopular]: with at least 200 elements in [b], those that occur more
    than [n // 100 + 1] times. *)
Definition popular (b : str) (c : ascii) : bool :=
  (200 <=? length b) && (length b / 100 + 1 <? count c b).

(** [b2j.get(c, nothing)]: the indices of [c] in [b], ascending, the junk and
    the popular elements purged. *)
Definition b2j (b : str) (c : ascii) : list nat :=
  if isbjunk c || popular b c then [] else indices_from c b 0.

Definition dict := list (nat * nat).

Fixpoint dget (d : dict) (j : nat) : nat :=
  match d with
  | [] => 0
  | (k, v) :: d' => if k =? j then v else dget d' j
  end.

(** [j2len.get(j - 1, 0)]: no key is negative. *)
Definition get_prev (j2len : dict) (j : nat) : nat :=
  match j with
  | 0 => 0
  | S j' => dget j2len j'
  end.

(** A block [(i, j, size)]. *)
Definition block : Type := nat * nat * nat.

(** The inner loop of [find_longest_match] over the indices of [a[i]]. *)
Fixpoint scan_row (i blo bhi : nat) (j2len : dict) (js : list nat)
    (newj2len : dict) (best : block) : dict * block :=
  match js with
  | [] => (newj2len, best)
  | j :: js' =>
      if j <? blo then scan_row i blo bhi j2len js' newj2len best
      else if bhi <=? j then (newj2len, best)
      else
        let k := get_prev j2len j + 1 in
        let newj2len := (j, k) :: newj2len in
        let '(besti, bestj, bestsize) := best in
        let best := if bestsize <? k then (i + 1 - k, j + 1 - k, k) else best in
        scan_row i blo bhi j2len js' newj2len best
  end.

(** The outer loop, [for i in range(alo, ahi)]. *)
Fixpoint scan_rows (a b : str) (blo bhi : nat) (rows : list nat)
    (j2len : dict) (best : block) : block :=
  match rows with
  | [] => best
  | i :: rows' =>
      let js := match nth_error a i with Some c => b2j b c | None => [] end in
      let '(newj2len, best) := scan_row i blo bhi j2len js [] best in
      scan_rows a b blo bhi rows' newj2len best
  end.

Definition same_elt (x y : option ascii) : bool :=
  match x, y with
  | Some c, Some d => ch_eqb c d
  | _, _ => false
  end.

Definition junk_is (want : bool) (x : option ascii) : bool :=
  match x with
  | Some c => eqb (isbjunk c) want
  | None => false
  end.

(** The loops that extend a match at its ends, by elements that are not junk
    ([want = false]) and then by junk ([want = true]). *)
Fixpoint extend_left (want : bool) (a b : str) (alo blo fuel : nat) (best : block)
    : block :=
  let '(besti, bestj, bestsize) := best in
  match fuel with
  | 0 => best
  | S fuel' =>
      if (alo <? besti) && (blo <? bestj)
         && junk_is want (nth_error b (bestj - 1))
         && same_elt (nth_error a (besti - 1)) (nth_error b (bestj - 1))
      then extend_left want a b alo blo fuel' (besti - 1, bestj - 1, bestsize + 1)
      else best
  end.

Fixpoint extend_right (want : bool) (a b : str) (ahi bhi fuel : nat) (best : block)
    : block :=
  let '(besti, bestj, bestsize) := best in
  match fuel with
  | 0 => best
  | S fuel' =>
      if (besti + bestsize <? ahi) && (bestj + bestsize <? bhi)
         && junk_is want (nth_error b (bestj + bestsize))
         && same_elt (nth_error a (besti + bestsize)) (nth_error b (bestj + bestsize))
      then extend_right want a b ahi bhi fuel' (besti, bestj, bestsize + 1)
      else best
  end.

Definition find_longest_match (a b : str) (alo ahi blo bhi : nat) : block :=
  let best := scan_rows a b blo bhi (seq alo (ahi - alo)) [] (alo, blo, 0) in
  let best := extend_left false a b alo blo (length a) best in
  let best := extend_right false a b ahi bhi (length a) best in
  let best := extend_left true a b alo blo (length a) best in
  let best := extend_right true a b ahi bhi (length a) best in
  best.

(** The loop of [get_matching_blocks] over its queue, a stack of ranges
    [(alo, ahi, blo, bhi)]; [None] when [fuel] rounds do not empty it. *)
Fixpoint match_queue (a b : str) (fuel : nat) (queue : list (nat * nat * nat * nat))
    (matching_blocks : list block) : option (list block) :=
  match queue with
  | [] => Some matching_blocks
  | (alo, ahi, blo, bhi) :: queue =>
      match fuel with
      | 0 => None
      | S fuel' =>
          let '(i, j, k) := find_longest_match a b alo ahi blo bhi in
          if k =? 0 then match_queue a b fuel' queue matching_blocks
          else
            let matching_blocks := matching_blocks ++ [(i, j, k)] in
            let queue := if (alo <? i) && (blo <? j)
                         then (alo, i, blo, j) :: queue else queue in
            let queue := if (i + k <? ahi) && (j + k <? bhi)
                         then (i + k, ahi, j + k, bhi) :: queue else queue in
            match_queue a b fuel' queue matching_blocks
      end
  end.

(** The order of tuples, for [matching_blocks.sort()]. *)
Definition block_leb (x y : block) : bool :=
  let '(i1, j1, k1) := x in
  let '(i2, j2, k2) := y in
  (i1 <? i2) || ((i1 =? i2) && ((j1 <? j2) || ((j1 =? j2) && (k1 <=? k2)))).

Fixpoint insert_block (x : block) (l : list block) : list block :=
  match l with
  | [] => [x]
  | y :: l' => if block_leb x y then x :: l else y :: insert_block x l'
  end.

Definition sort_blocks (l : list block) : list block := fold_right insert_block [] l.

(** The loop that merges adjacent blocks. *)
Fixpoint collapse (blocks : list block) (cur : block) (non_adjacent : list block)
    : list block :=
  let '(i1, j1, k1) := cur in
  match blocks with
  | [] => if k1 =? 0 then non_adjacent else non_adjacent ++ [cur]
  | (i2, j2, k2) :: blocks' =>
      if (i1 + k1 =? i2) && (j1 + k1 =? j2)
      then collapse blocks' (i1, j1, k1 + k2) non_adjacent
      else collapse blocks' (i2, j2, k2)
             (if k1 =? 0 then non_adjacent else non_adjacent ++ [cur])
  end.

Definition get_matching_blocks (a b : str) : option (list block) :=
  let la := length a in
  let lb := length b in
  match match_queue a b (S (2 * la)) [(0, la, 0, lb)] [] with
  | None => None
  | Some matching_blocks =>
      let matching_blocks := sort_blocks matching_blocks in
      let non_adjacent := collapse matching_blocks (0, 0, 0) [] in
      Some (non_adjacent ++ [(la, lb, 0)])
  end.

End Difflib.

(** ** Floats

    The two float computations of [score_similarity], a division and
    [round(x, 4)], on exact values: a positive double is [mant * 2 ^ expo]
    with [2^52 <= mant < 2^53], zero is [(0, 0)]. *)

Module Float.

Record float : Type := Double { mant : Z; expo : Z }.

Definition zero : float := Double 0 0.

(** The quotient [n / d] rounded to the nearest integer, a tie to the even
    one ([d] positive). *)
Definition div_half_even (n d : Z) : Z :=
  let q := (n / d)%Z in
  let r := (n mod d)%Z in
  match (2 * r ?= d)%Z with
  | Lt => q
  | Gt => (q + 1)%Z
  | Eq => if Z.even q then q else (q + 1)%Z
  end.

(** [p / (q * 2 ^ e)] as a fraction of integers. *)
Definition scaled (p q e : Z) : Z * Z :=
  if (0 <=? e)%Z then (p, (q * 2 ^ e)%Z) else ((p * 2 ^ (- e))%Z, q).

(** The double nearest to [p / q], for positive integers [p] and [q]: the
    IEEE 754 division of two integers that are doubles themselves. *)
Definition fdiv (p q : Z) : float :=
  let e0 := (Z.log2 p - Z.log2 q - 52)%Z in
  let '(n0, d0) := scaled p q e0 in
  let e := if (n0 / d0 <? 2 ^ 52)%Z then (e0 - 1)%Z else e0 in
  let '(n, d) := scaled p q e in
  let m := div_half_even n d in
  if (m =? 2 ^ 53)%Z then Double (2 ^ 52) (e + 1) else Double m e.

(** [round(x, 4)]: the exact value of [x] is rounded to four decimal places,
    half to even, and the double nearest to that decimal is returned. *)
Definition round4 (x : float) : float :=
  let '(n, d) := scaled (mant x * 10000) 1 (- expo x) in
  let t := div_half_even n d in
  if (t =? 0)%Z then zero else fdiv t 10000.

End Float.

(** ** config/patterns.py *)

(** [PATTERN_DEFINITIONS], each pattern string parsed:
<<
    "HVDC_ADOPT":   HVDC-ADOPT-[A-Z]+-[0-9]{3,5}
    "HVDC_GENERIC": HVDC-[A-Z]+-[A-Z0-9]+-[A-Z0-9\-]+
    "JPTW_GRM":     JPTW-(\d+)\s*/\s*GRM-(\d+)
    "PAREN_ANY":    \(([^\)]+)\)
    "TRAILING":     :\s*([A-Z]+(?:-[A-Z0-9]+){2,})
>> *)
Definition PATTERN_DEFINITIONS : list (str * regex) :=
  [ (L "HVDC_ADOPT",
     cat [lit (L "HVDC-ADOPT-"); plus (In_ false [A_Z]); Lit "-";
          Rep true 3 (Some 5) (In_ false [d0_9])]);
    (L "HVDC_GENERIC",
     cat [lit (L "HVDC-"); plus (In_ false [A_Z]); Lit "-";
          plus (In_ false [A_Z; d0_9]); Lit "-";
          plus (In_ false [A_Z; d0_9; CChar "-"])]);
    (L "JPTW_GRM",
     cat [lit (L "JPTW-"); Group 1 (plus digit); star space; Lit "/";
          star space; lit (L "GRM-"); Group 2 (plus digit)]);
    (L "PAREN_ANY",
     cat [Lit "("; Group 1 (plus (In_ true [CChar ")"])); Lit ")"]);
    (L "TRAILING",
     cat [Lit ":"; star space;
          Group 1 (cat [plus (In_ false [A_Z]);
                        Rep true 2 None
                          (cat [Lit "-"; plus (In_ false [A_Z; d0_9])])])]) ].

(** [COMPILED_PATTERNS]: every definition compiled with [re.IGNORECASE]. *)
Definition COMPILED_PATTERNS : list (str * pattern) :=
  map (fun kv => (fst kv, Compile (snd kv) true)) PATTERN_DEFINITIONS.

Definition VENDOR_ALIASES : list (str * str) :=
  [ (L "he", L "Hitachi Energy");
    (L "hitachi energy", L "Hitachi Energy");
    (L "hitachi", L "Hitachi Energy");
    (L "sct", L "Samsung C&T");
    (L "samsung c&t", L "Samsung C&T");
    (L "mosb", L "MOSB");
    (L "als", L "ALS") ].

Definition SITE_ALIASES : list (str * str) :=
  [ (L "das", L "DAS Site");
    (L "agi", L "AGI Site");
    (L "mir", L "MIR Site");
    (L "mirfa", L "MIRFA Site");
    (L "ghallan", L "GHALLAN Site") ].

(** ** Dictionaries, sets and [sorted] *)

(** [d.get(key)] on a dictionary given by its items. *)
Fixpoint dict_get {V : Type} (d : list (str * V)) (key : str) : option V :=
  match d with
  | [] => None
  | (k, v) :: d' => if str_eqb k key then Some v else dict_get d' key
  end.

(** [d[key]]: raises [KeyError] when the key is missing. *)
Definition getitem {V : Type} (d : list (str * V)) (key : str) : result V :=
  match dict_get d key with
  | Some v => Ok v
  | None => Raise (KeyError key)
  end.

(** [d.get(key, default)] *)
Definition get_default {V : Type} (d : list (str * V)) (key : str) (default : V) : V :=
  match dict_get d key with
  | Some v => v
  | None => default
  end.

(** A [set] of strings, as the list of its distinct members. *)
Definition pyset := list str.

Definition set_in (x : str) (s : pyset) : bool := existsb (str_eqb x) s.

(** [s.add(x)] *)
Definition set_add (s : pyset) (x : str) : pyset :=
  if set_in x s then s else s ++ [x].

(** [s.update(xs)] *)
Definition set_update (s : pyset) (xs : list str) : pyset := fold_left set_add xs s.

(** [sorted(xs)]: ascending, by the order of [str]. *)
Fixpoint insert_sorted (x : str) (l : list str) : list str :=
  match l with
  | [] => [x]
  | y :: l' => if str_leb x y then x :: l else y :: insert_sorted x l'
  end.

Definition sorted (xs : list str) : list str := fold_right insert_sorted [] xs.

(** ** utils/pattern_matcher.py *)

(** [subject or ""] *)
Definition or_empty (subject : option str) : str :=
  match subject with
  | Some s => s
  | None => []
  end.

Definition normalize_subject (subject : option str) : str :=
  let normalized := nfkc (or_empty subject) in
  lower (strip normalized).

(** The f-string of the JPTW/GRM rule. *)
Definition jptw_grm_code (m : match_obj) : str :=
  L "JPTW-" ++ group 1 m ++ L "/GRM-" ++ group 2 m.

(** The body of [find_case_codes] over a registry [patterns]; the lookups
    happen in the order of the source and the first missing key raises. *)
Definition find_case_codes_try (patterns : list (str * pattern))
    (text : option str) : result (list str) :=
  let work := normalize_subject text in
  let matches : pyset := [] in
  p_adopt <- getitem patterns (L "HVDC_ADOPT") ;;
  let adopt := map upper (findall p_adopt work) in
  let matches := set_update matches adopt in
  p_generic <- getitem patterns (L "HVDC_GENERIC") ;;
  let generic := map upper (findall p_generic work) in
  let matches := set_update matches generic in
  p_jptw <- getitem patterns (L "JPTW_GRM") ;;
  let matches := fold_left (fun acc m => set_add acc (jptw_grm_code m))
                           (finditer p_jptw work) matches in
  p_trailing <- getitem patterns (L "TRAILING") ;;
  let matches := fold_left (fun acc m => set_add acc (upper m))
                           (findall p_trailing work) matches in
  Ok (sorted matches).

(** [str(error)] of a [KeyError]: the key between quotes. *)
Definition str_of_key_error (key : str) : str := L "'" ++ key ++ L "'".

(** [try: ... except KeyError as error: raise PatternMatchError(str(error))] *)
Definition find_case_codes_in (patterns : list (str * pattern))
    (text : option str) : result (list str) :=
  match find_case_codes_try patterns text with
  | Raise (KeyError key) => Raise (PatternMatchError (str_of_key_error key))
  | r => r
  end.

Definition find_case_codes (text : option str) : result (list str) :=
  find_case_codes_in COMPILED_PATTERNS text.

(** [match_vendor_alias]: the default, [alias.strip().title()], is evaluated
    before the lookup; on [None] it raises. *)
Definition match_vendor_alias (alias : option str) : result str :=
  let key := normalize_subject alias in
  default <- match alias with
             | Some a => Ok (title (strip a))
             | None => Raise AttributeError
             end ;;
  Ok (get_default VENDOR_ALIASES key default).

Definition match_site_alias (alias : option str) : result str :=
  let key := normalize_subject alias in
  default <- match alias with
             | Some a => Ok (upper (strip a))
             | None => Raise AttributeError
             end ;;
  Ok (get_default SITE_ALIASES key default).

(** [sum(triple[-1] for triple in blocks)] *)
Definition sum_sizes (blocks : list Difflib.block) : nat :=
  fold_left (fun acc x => acc + snd x) blocks 0.

(** [_calculate_ratio(matches, length)] *)
Definition calculate_ratio (matches length : nat) : Float.float :=
  if length =? 0 then Float.fdiv 1 1
  else if matches =? 0 then Float.zero
  else Float.fdiv (2 * Z.of_nat matches) (Z.of_nat length).

(** [SequenceMatcher(a=a, b=b).ratio()] *)
Definition ratio (a b : str) : option Float.float :=
  match Difflib.get_matching_blocks a b with
  | None => None
  | Some blocks => Some (calculate_ratio (sum_sizes blocks) (length a + length b))
  end.

(** [score_similarity]; [None] if the matcher's loop did not finish within its
    bound, which happens for no input ([score_similarity_finishes]). *)
Definition score_similarity (left right : str) : option Float.float :=
  option_map Float.round4
    (ratio (normalize_subject (Some left)) (normalize_subject (Some right))).

(** [re.sub(pattern, "", s)]: the text outside the matches. *)
Fixpoint sub_scan (p : pattern) (fuel : nat) (s : str) : str :=
  match fuel with
  | 0 => s
  | S fuel' =>
      let next := match s with [] => [] | c :: t => c :: sub_scan p fuel' t end in
      match match_at p s with
      | Some (_, rest) =>
          if length rest <? length s then sub_scan p fuel' rest else next
      | None => next
      end
  end.

Definition sub_empty (p : pattern) (s : str) : str := sub_scan p (S (length s)) s.

(** ** comprehensive_email_mapper (1).py *)

(** [self.case_patterns]:
<<
    'pattern1':       HVDC-ADOPT-([A-Z]+)-([A-Z0-9\-]+)
    'pattern2':       HVDC-([A-Z]+)-([A-Z]+)-([A-Z0-9\-]+)
    'pattern3_outer': \(([^\)]+)\)
    'pattern3_inner': ([A-Z]+)-([0-9]+(?:-[0-9A-Z]+)?)
    'pattern4':       \[HVDC-AGI\].*?(JPTW-(\d+))\s*/\s*(GRM-(\d+))
    'pattern5':       :\s*([A-Z]+-[A-Z]+-[A-Z]+\d+-[A-Z]+\d+)
>> *)
Definition case_patterns : list (str * regex) :=
  [ (L "pattern1",
     cat [lit (L "HVDC-ADOPT-"); Group 1 (plus (In_ false [A_Z])); Lit "-";
          Group 2 (plus (In_ false [A_Z; d0_9; CChar "-"]))]);
    (L "pattern2",
     cat [lit (L "HVDC-"); Group 1 (plus (In_ false [A_Z])); Lit "-";
          Group 2 (plus (In_ false [A_Z])); Lit "-";
          Group 3 (plus (In_ false [A_Z; d0_9; CChar "-"]))]);
    (L "pattern3_outer",
     cat [Lit "("; Group 1 (plus (In_ true [CChar ")"])); Lit ")"]);
    (L "pattern3_inner",
     cat [Group 1 (plus (In_ false [A_Z])); Lit "-";
          Group 2 (cat [plus (In_ false [d0_9]);
                        opt (cat [Lit "-"; plus (In_ false [d0_9; A_Z])])])]);
    (L "pattern4",
     cat [lit (L "[HVDC-AGI]"); Rep false 0 None Any;
          Group 1 (cat [lit (L "JPTW-"); Group 2 (plus digit)]);
          star space; Lit "/"; star space;
          Group 3 (cat [lit (L "GRM-"); Group 4 (plus digit)])]);
    (L "pattern5",
     cat [Lit ":"; star space;
          Group 1 (cat [plus (In_ false [A_Z]); Lit "-"; plus (In_ false [A_Z]);
                        Lit "-"; plus (In_ false [A_Z]); plus digit; Lit "-";
                        plus (In_ false [A_Z]); plus digit])]) ].

(** [if full_case not in case_numbers: case_numbers.append(full_case)] *)
Definition append_new (case_numbers : list str) (full_case : str) : list str :=
  if existsb (str_eqb full_case) case_numbers then case_numbers
  else case_numbers ++ [full_case].

(** [match[i]] on a tuple of groups. *)
Definition item (i : nat) (tuple : list str) : str := nth i tuple [].

(** [ComprehensiveEmailMapper.extract_case_numbers] *)
Definition extract_case_numbers (subject : option str) : result (list str) :=
  match subject with
  | None | Some [] => Ok []
  | Some subject =>
      let case_numbers : list str := [] in
      let subject_str := upper subject in
      r1 <- getitem case_patterns (L "pattern1") ;;
      let pattern1 := findall_tuples (Compile r1 true) subject_str in
      let case_numbers :=
        fold_left (fun acc m =>
                     append_new acc (L "HVDC-ADOPT-" ++ upper (item 0 m) ++ L "-" ++ item 1 m))
                  pattern1 case_numbers in
      r2 <- getitem case_patterns (L "pattern2") ;;
      let pattern2 := findall_tuples (Compile r2 true) subject_str in
      let case_numbers :=
        fold_left (fun acc m =>
                     append_new acc (L "HVDC-" ++ upper (item 0 m) ++ L "-"
                                     ++ upper (item 1 m) ++ L "-" ++ item 2 m))
                  pattern2 case_numbers in
      r3o <- getitem case_patterns (L "pattern3_outer") ;;
      let pattern3_outer := findall (Compile r3o false) subject_str in
      case_numbers <-
        fold_left (fun acc outer_match =>
                     acc <- acc ;;
                     r3i <- getitem case_patterns (L "pattern3_inner") ;;
                     let pattern3_inner := findall_tuples (Compile r3i true) outer_match in
                     Ok (fold_left (fun acc m =>
                                      append_new acc (L "HVDC-ADOPT-" ++ upper (item 0 m)
                                                      ++ L "-" ++ item 1 m))
                                   pattern3_inner acc))
                  pattern3_outer (Ok case_numbers) ;;
      r4 <- getitem case_patterns (L "pattern4") ;;
      let pattern4 := findall_tuples (Compile r4 true) subject_str in
      let case_numbers :=
        fold_left (fun acc m =>
                     append_new acc (upper (L "HVDC-AGI-JPTW" ++ item 1 m
                                            ++ L "-GRM" ++ item 3 m)))
                  pattern4 case_numbers in
      r5 <- getitem case_patterns (L "pattern5") ;;
      let pattern5 := findall (Compile r5 true) subject_str in
      let paren := Compile (cat [Lit "("; Rep false 0 None Any; Lit ")"]) false in
      let case_numbers :=
        fold_left (fun acc m => append_new acc (upper (strip (sub_empty paren m))))
                  pattern5 case_numbers in
      Ok case_numbers
  end.

(** * The callers and the neighbours of the pattern matcher *)

(** [s.split(sep)] for a separator of one character. *)
Fixpoint split_on (sep : ascii) (s : str) : list str :=
  match s with
  | [] => [[]]
  | c :: t =>
      if ch_eqb c sep then [] :: split_on sep t
      else match split_on sep t with
           | h :: r => (c :: h) :: r
           | [] => [[c]]
           end
  end.

(** ** comprehensive_email_mapper.py *)

(** The exceptions of [build_summary]: those of the pattern matcher, and the
    [IndexError] of a subscript. *)
Inductive summary_exn : Type :=
| Lifted (e : exn)
| IndexError.

Inductive res (A : Type) : Type :=
| Val (a : A)
| Exc (e : summary_exn).
Arguments Val {A} a.
Arguments Exc {A} e.

Definition bind_res {A B : Type} (m : res A) (k : A -> res B) : res B :=
  match m with
  | Val a => k a
  | Exc e => Exc e
  end.

Notation "x <~ m ;; k" := (bind_res m (fun x => k))
  (at level 61, m at next level, right associativity).

Definition lift {A : Type} (r : result A) : res A :=
  match r with
  | Ok a => Val a
  | Raise e => Exc (Lifted e)
  end.

(** [l[i]] *)
Definition subscript {A : Type} (l : list A) (i : nat) : res A :=
  match nth_error l i with
  | Some x => Val x
  | None => Exc IndexError
  end.

(** A loop whose body can raise. *)
Fixpoint for_each {A S : Type} (body : S -> A -> res S) (l : list A) (s : S) : res S :=
  match l with
  | [] => Val s
  | x :: t => s' <~ body s x ;; for_each body t s'
  end.

(** [collections.Counter]: the keys in the order of their first count. *)
Definition counter := list (str * nat).

(** [counter[key] += 1] *)
Fixpoint counter_incr (c : counter) (key : str) : counter :=
  match c with
  | [] => [(key, 1)]
  | (k, n) :: c' =>
      if str_eqb k key then (k, S n) :: c' else (k, n) :: counter_incr c' key
  end.

(** [counter.most_common()]: by count, descending; equal counts stay in the
    order of the counter. *)
Fixpoint insert_by_count (x : str * nat) (l : list (str * nat)) : list (str * nat) :=
  match l with
  | [] => [x]
  | y :: l' => if snd x <? snd y then y :: insert_by_count x l' else x :: l
  end.

Definition most_common (c : counter) : list (str * nat) :=
  fold_right insert_by_count [] c.

(** The fields of [EmailMetadata] that hold text. *)
Record EmailMetadata : Type := {
  subject : str;
  sender : str;
  recipients : list str;
  cc : list str;
  received_at : option str;
  body : str
}.

Record summary : Type := {
  total_emails : nat;
  cases : list (str * nat);
  vendors : list (str * nat);
  sites : list (str * nat)
}.

(** [f"{item.subject} {item.body[:200]}"] *)
Definition summary_text (item : EmailMetadata) : str :=
  subject item ++ L " " ++ firstn 200 (body item).

(** The vendor counted for a code: the alias of [code.split("-")[1]]. *)
Definition code_vendor (code : str) : res (option str) :=
  let vendor_parts := split_on "-" code in
  match vendor_parts with
  | [] => Val None
  | _ =>
      part <~ subscript vendor_parts 1 ;;
      vendor <~ lift (match_vendor_alias (Some part)) ;;
      Val (Some vendor)
  end.

(** The site counted for a recipient: the alias of [recipient.split("@")[0]]. *)
Definition recipient_site (recipient : str) : res str :=
  part <~ subscript (split_on "@" recipient) 0 ;;
  lift (match_site_alias (Some part)).

(** The counters of [build_summary]: vendors, sites, cases, total. *)
Record tally : Type := {
  vendor_counter : counter;
  site_counter : counter;
  case_counter : counter;
  total : nat
}.

Definition count_code (t : tally) (code : str) : res tally :=
  let case_counter := counter_incr (case_counter t) code in
  vendor <~ code_vendor code ;;
  let vendor_counter :=
    match vendor with
    | Some v => counter_incr (vendor_counter t) v
    | None => vendor_counter t
    end in
  Val {| vendor_counter := vendor_counter; site_counter := site_counter t;
         case_counter := case_counter; total := total t |}.

Definition count_recipient (t : tally) (recipient : str) : res tally :=
  site <~ recipient_site recipient ;;
  Val {| vendor_counter := vendor_counter t;
         site_counter := counter_incr (site_counter t) site;
         case_counter := case_counter t; total := total t |}.

Definition count_item (t : tally) (item : EmailMetadata) : res tally :=
  let t := {| vendor_counter := vendor_counter t; site_counter := site_counter t;
              case_counter := case_counter t; total := total t + 1 |} in
  codes <~ lift (find_case_codes (Some (summary_text item))) ;;
  t <~ for_each count_code codes t ;;
  for_each count_recipient (recipients item) t.

Definition build_summary (items : list EmailMetadata) : res summary :=
  t <~ for_each count_item items
         {| vendor_counter := []; site_counter := []; case_counter := []; total := 0 |} ;;
  Val {| total_emails := total t;
         cases := most_common (case_counter t);
         vendors := most_common (vendor_counter t);
         sites := most_common (site_counter t) |}.

(** [x <= y] on floats. *)
Definition float_leb (x y : Float.float) : bool :=
  let e := Z.min (Float.expo x) (Float.expo y) in
  (Float.mant x * 2 ^ (Float.expo x - e) <=? Float.mant y * 2 ^ (Float.expo y - e))%Z.

(** The default threshold of [fuzzy_contains], the float [0.82]. *)
Definition default_threshold : Float.float := Float.fdiv 82 100.

(** [fuzzy_contains(term, candidates, threshold)]; [None] if a score did not
    finish. *)
Fixpoint fuzzy_contains (term : str) (candidates : list str)
    (threshold : Float.float) : option bool :=
  match candidates with
  | [] => Some false
  | candidate :: rest =>
      match score_similarity term candidate with
      | None => None
      | Some score =>
          if float_leb threshold score then Some true
          else fuzzy_contains term rest threshold
      end
  end.

(** [s.startswith(prefix)] *)
Fixpoint starts_with (prefix s : str) : bool :=
  match prefix, s with
  | [], _ => true
  | p :: prefix', c :: s' => ch_eqb p c && starts_with prefix' s'
  | _ :: _, [] => false
  end.

(** [sub in s] *)
Fixpoint contains (sub s : str) : bool :=
  starts_with sub s
  || match s with
     | [] => false
     | _ :: t => contains sub t
     end.

(** ** utils/file_handler.py *)

(** The loop of [chunked] over the items left, with the batch in hand. *)
Fixpoint chunked_from {T : Type} (size : Z) (items : list T) (batch : list T)
    : list (list T) :=
  match items with
  | [] => match batch with [] => [] | _ => [batch] end
  | item :: rest =>
      let batch := batch ++ [item] in
      if (size <=? Z.of_nat (length batch))%Z
      then batch :: chunked_from size rest []
      else chunked_from size rest batch
  end.

(** [chunked(iterable, size)], the chunks it yields. *)
Definition chunked {T : Type} (iterable : list T) (size : Z) : list (list T) :=
  chunked_from size iterable [].

(** What [iter_email_files] reads of a path [root.rglob("*")] lists. *)
Record candidate : Type := {
  is_file : bool;
  suffix : str;
  resolved : str
}.

(** The fields of [HVDCSettings] the file utilities read. *)
Record HVDCSettings : Type := {
  allowed_extensions : list str;
  outlook_extensions : list str;
  max_files : option Z
}.

(** The loop of [iter_email_files] over the candidates left. *)
Fixpoint iter_from (allowed blocked : pyset) (limit : option Z)
    (candidates : list candidate) (yielded : Z) : list str :=
  match candidates with
  | [] => []
  | c :: rest =>
      if negb (is_file c) then iter_from allowed blocked limit rest yielded
      else
        let suffix := lower (suffix c) in
        if set_in suffix blocked then iter_from allowed blocked limit rest yielded
        else if negb (set_in suffix allowed)
        then iter_from allowed blocked limit rest yielded
        else
          let yielded := (yielded + 1)%Z in
          resolved c ::
            match limit with
            | Some m => if (m <=? yielded)%Z then []
                        else iter_from allowed blocked limit rest yielded
            | None => iter_from allowed blocked limit rest yielded
            end
  end.

(** [iter_email_files(root, settings)], the paths it yields, over the listing
    of [root.rglob("*")]. *)
Definition iter_email_files (listing : list candidate) (settings : HVDCSettings)
    : list str :=
  let allowed := set_update [] (map lower (allowed_extensions settings)) in
  let blocked := set_update [] (map lower (outlook_extensions settings)) in
  iter_from allowed blocked (max_files settings) listing 0.

(** ** config/settings.py *)

(** [ext.lower() if ext.startswith(".") else f".{ext.lower()}"] *)
Definition dotted (ext : str) : str :=
  if starts_with (L ".") ext then lower ext else L "." ++ lower ext.

Definition merge_extensions (primary extra : list str) : list str :=
  let normalized := set_update [] (map dotted primary) in
  let normalized := fold_left (fun acc ext => set_add acc (dotted ext)) extra normalized in
  sorted normalized.

(** ** comprehensive_email_mapper (1).py, the other extractors *)

Definition project_phases : list (str * list str) :=
  [ (L "procurement", [L "LPO"; L "PO"; L "Purchase Order"; L "Procurement"; L "Order"]);
    (L "shipping", [L "Shipping"; L "Delivery"; L "Container"; L "CNTR"; L "LCT"; L "Vessel"]);
    (L "customs", [L "Customs"; L "Clearance"; L "Import"; L "Export"; L "Duty"]);
    (L "logistics", [L "Logistics"; L "Transport"; L "Freight"; L "Cargo"; L "Material"]);
    (L "installation", [L "Installation"; L "Install"; L "Mounting"; L "Assembly"]);
    (L "testing", [L "Test"; L "Testing"; L "Commissioning"; L "Startup"]);
    (L "certification", [L "Certificate"; L "Cert"; L "MTC"; L "COC"; L "Quality"]) ].

(** The loops of [extract_project_phase]: the first phase, in the order of
    the dictionary, one of whose keywords is in the subject. *)
Fixpoint phase_of (phases : list (str * list str)) (subject_lower : str) : str :=
  match phases with
  | [] => L "general"
  | (phase, keywords) :: phases' =>
      if existsb (fun keyword => contains (lower keyword) subject_lower) keywords
      then phase
      else phase_of phases' subject_lower
  end.

Definition extract_project_phase (subject : str) : str :=
  let subject_lower := lower subject in
  phase_of project_phases subject_lower.

(** [lpo_pattern], LPO[-\s]?(\d+) *)
Definition lpo_pattern : regex :=
  cat [lit (L "LPO"); opt (In_ false [CChar "-"; CSpace]); Group 1 (plus digit)].

Definition extract_lpo_numbers (subject : str) : list str :=
  let matches := findall (Compile lpo_pattern true) subject in
  map (fun m => L "LPO-" ++ m) matches.

(** ** folder_title_mapper.py *)

(** What [build_folder_map] reads of an entry of [root.iterdir()]. *)
Record folder : Type := {
  folder_name : str;
  folder_is_dir : bool;
  folder_resolved : str
}.

(** An entry of the mapping: the keys folder, path, cases and site. *)
Record folder_entry : Type := {
  entry_folder : str;
  entry_path : str;
  entry_cases : list str;
  entry_site : str
}.

(** The body of the loop of [build_folder_map]. *)
Definition map_folder (mapping : list folder_entry) (f : folder)
    : res (list folder_entry) :=
  if negb (folder_is_dir f) then Val mapping
  else
    codes <~ lift (find_case_codes (Some (folder_name f))) ;;
    part <~ subscript (split_on "_" (folder_name f)) 0 ;;
    site <~ lift (match_site_alias (Some part)) ;;
    Val (mapping ++ [ {| entry_folder := folder_name f;
                         entry_path := folder_resolved f;
                         entry_cases := codes;
                         entry_site := site |} ]).

(** [build_folder_map(root, settings, logger)], over the listing of
    [root.iterdir()]. *)
Definition build_folder_map (listing : list folder) : res (list folder_entry) :=
  for_each map_folder listing [].

(** * Vocabulary of the properties *)

(** A property of every character is checked on the 256 of them. *)
Definition all_ascii : list ascii := map ascii_of_nat (seq 0 256).

Definition str_le (a b : str) : Prop := str_leb a b = true.
Definition str_lt (a b : str) : Prop := str_ltb a b = true.

(** The characters one leaf of an expression accepts. *)
Definition leaf_accepts (ic : bool) (r : regex) (ch : ascii) : bool :=
  match r with
  | Lit a => lit_match ic a ch
  | Any => negb (code ch =? 10)
  | In_ negate items => xorb negate (set_mem ic items ch)
  | _ => false
  end.

(** [within ic P r]: every character [r] can consume satisfies [P]. *)
Fixpoint within (ic : bool) (P : ascii -> bool) (r : regex) : bool :=
  match r with
  | Empty => true
  | Lit _ | Any | In_ _ _ =>
      forallb (fun ch => implb (leaf_accepts ic r ch) (P ch)) all_ascii
  | Cat r1 r2 => within ic P r1 && within ic P r2
  | Rep _ _ _ r1 => within ic P r1
  | Group _ r1 => within ic P r1
  end.

(** [groups_within ic Q r]: every character group [n] of [r] can consume
    satisfies [Q n]. *)
Fixpoint groups_within (ic : bool) (Q : nat -> ascii -> bool) (r : regex) : bool :=
  match r with
  | Cat r1 r2 => groups_within ic Q r1 && groups_within ic Q r2
  | Rep _ _ _ r1 => groups_within ic Q r1
  | Group n r1 => within ic (Q n) r1 && groups_within ic Q r1
  | _ => true
  end.

(** An outcome [o] of a search on [s] leaves a suffix of [s], and consumed
    characters of [P]. *)
Definition eats (P : ascii -> bool) (s : str) (o : outcome) : Prop :=
  exists pre, s = pre ++ fst o /\ forallb P pre = true.

Definition cap_ok (Q : nat -> ascii -> bool) (kv : nat * str) : Prop :=
  forallb (Q (fst kv)) (snd kv) = true.

(** The compiled pattern of a registered rule. *)
Definition rule (key : str) : pattern :=
  get_default COMPILED_PATTERNS key (Compile Empty true).

(** The canonical codes in extraction order: rule after rule in the order
    [find_case_codes] applies them, left to right within a rule. *)
Definition extracted (work : str) : list str :=
  map upper (findall (rule (L "HVDC_ADOPT")) work)
  ++ map upper (findall (rule (L "HVDC_GENERIC")) work)
  ++ map jptw_grm_code (finditer (rule (L "JPTW_GRM")) work)
  ++ map upper (findall (rule (L "TRAILING")) work).

(** The keys [find_case_codes] looks up, in the order it does. *)
Definition lookup_keys : list str :=
  [L "HVDC_ADOPT"; L "HVDC_GENERIC"; L "JPTW_GRM"; L "TRAILING"].

Definition has_key {V : Type} (d : list (str * V)) (key : str) : bool :=
  match dict_get d key with Some _ => true | None => false end.

(** The first of the looked-up keys a registry lacks. *)
Definition missing_key (patterns : list (str * pattern)) : option str :=
  find (fun k => negb (has_key patterns k)) lookup_keys.

(** Upper-case letters, digits and the hyphen. *)
Definition plain_char (c : ascii) : bool :=
  is_upper c || is_digit c || ch_eqb c "-".

(** The same and the slash of a JPTW/GRM pair. *)
Definition code_char (c : ascii) : bool := plain_char c || ch_eqb c "/".

(** The form of a JPTW/GRM code: two runs of digits around the fixed text. *)
Definition jptw_grm_form (e : str) : Prop :=
  exists n m, forallb is_digit n = true /\ forallb is_digit m = true
              /\ e = L "JPTW-" ++ n ++ L "/GRM-" ++ m.

(** The deduplication of the specification: equality is taken on the
    case-folded value, the first occurrence stays where it is and later ones
    are dropped. *)
Fixpoint first_seen_from (seen : list str) (xs : list str) : list str :=
  match xs with
  | [] => []
  | x :: t =>
      if set_in (lower x) seen then first_seen_from seen t
      else x :: first_seen_from (lower x :: seen) t
  end.

Definition first_seen (xs : list str) : list str := first_seen_from [] xs.

(** Position [x] of [s] holds an element that is not popular. *)
Definition plain_at (s : str) (x : nat) : bool :=
  match nth_error s x with
  | Some c => negb (Difflib.popular s c)
  | None => false
  end.

(** The length of the run of such positions that ends at [x]. *)
Fixpoint run_len (s : str) (x : nat) : nat :=
  match x with
  | 0 => if plain_at s 0 then 1 else 0
  | S x' => if plain_at s (S x') then S (run_len s x') else 0
  end.

Definition run_before (s : str) (r : nat) : nat :=
  match r with
  | 0 => 0
  | S r' => run_len s r'
  end.

(** The state of [find_longest_match] on [s] against itself before row [r]:
    the lengths of the row above are bounded by the runs, the one on the
    diagonal is the run, and the best match lies on the diagonal and is at
    least every run met. *)
Definition row_inv (s : str) (r : nat) (j2len : Difflib.dict) (best : Difflib.block) : Prop :=
  (forall j, Difflib.dget j2len j <= run_len s j)
  /\ (forall j, Difflib.dget j2len j <= run_before s r)
  /\ Difflib.get_prev j2len r = run_before s r
  /\ exists bi bs, best = (bi, bi, bs) /\ bi + bs <= r
                   /\ forall x, x < r -> run_len s x <= bs.

(** A block found in rows [alo..] lies in the range of [a] it was sought in. *)
Definition in_rows (alo top : nat) (best : Difflib.block) : Prop :=
  alo <= fst (fst best) /\ fst (fst best) + snd best <= top.

(** The work left in a queue of ranges. *)
Definition queue_work (queue : list (nat * nat * nat * nat)) : nat :=
  fold_right (fun q acc => let '(alo, ahi, _, _) := q in 2 * (ahi - alo) + 1 + acc)
             0 queue.

Definition queue_ok (queue : list (nat * nat * nat * nat)) : Prop :=
  Forall (fun q => let '(alo, ahi, _, _) := q in alo <= ahi) queue.

(** ** Vocabulary of the further properties *)

(** [must_have ch r]: every text [r] matches holds the character [ch] (a
    character without case, so that IGNORECASE does not matter). *)
Fixpoint must_have (ch : ascii) (r : regex) : bool :=
  match r with
  | Lit a => ch_eqb a ch && negb (is_alpha ch)
  | Cat r1 r2 => must_have ch r1 || must_have ch r2
  | Rep _ lo _ r1 => (1 <=? lo) && must_have ch r1
  | Group _ r1 => must_have ch r1
  | _ => false
  end.

(** [takes_some r]: [r] matches no empty text. *)
Fixpoint takes_some (r : regex) : bool :=
  match r with
  | Lit _ | Any | In_ _ _ => true
  | Cat r1 r2 => takes_some r1 || takes_some r2
  | Rep _ lo _ r1 => (1 <=? lo) && takes_some r1
  | Group _ r1 => takes_some r1
  | Empty => false
  end.

(** [groups_sound ic R r]: the text every group [n] of [r] can take
    satisfies [R n]. *)
Fixpoint groups_sound (ic : bool) (R : nat -> str -> Prop) (r : regex) : Prop :=
  match r with
  | Cat r1 r2 => groups_sound ic R r1 /\ groups_sound ic R r2
  | Rep _ _ _ r1 => groups_sound ic R r1
  | Group n r1 =>
      (forall s c o, In o (run ic r1 s c) -> R n (consumed s (fst o)))
      /\ groups_sound ic R r1
  | _ => True
  end.

(** Every capture of [c] satisfies [R]. *)
Definition caps_all (R : nat -> str -> Prop) (c : caps) : Prop :=
  Forall (fun kv => R (fst kv) (snd kv)) c.

(** A group that the pattern cannot skip is bound in every match. *)
Fixpoint binds (n : nat) (r : regex) : bool :=
  match r with
  | Cat r1 r2 => binds n r1 || binds n r2
  | Rep _ lo _ r1 => (1 <=? lo) && binds n r1
  | Group k r1 => (k =? n) || binds n r1
  | _ => false
  end.

(** Group [n] took part in the match. *)
Definition bound (n : nat) (c : caps) : Prop := exists v, cap_get n c = Some v.

(** [groups_have ch r]: the text of every group of [r] holds [ch]. *)
Fixpoint groups_have (ch : ascii) (r : regex) : bool :=
  match r with
  | Cat r1 r2 => groups_have ch r1 && groups_have ch r2
  | Rep _ _ _ r1 => groups_have ch r1
  | Group _ r1 => must_have ch r1 && groups_have ch r1
  | _ => true
  end.

(** The sum of the counts of a counter. *)
Definition count_sum (c : list (str * nat)) : nat :=
  fold_right (fun kv acc => snd kv + acc) 0 c.

(** [counter[key]] *)
Fixpoint count_of (c : list (str * nat)) (key : str) : nat :=
  match c with
  | [] => 0
  | (k, n) :: c' => if str_eqb k key then n else count_of c' key
  end.

Definition hit (k : str) (l : list str) : nat := if set_in k l then 1 else 0.

(** The codes [build_summary] finds in an email. *)
Definition item_codes (item : EmailMetadata) : list str :=
  match find_case_codes (Some (summary_text item)) with
  | Ok l => l
  | Raise _ => []
  end.

Definition codes_total (items : list EmailMetadata) : nat :=
  fold_right (fun item acc => length (item_codes item) + acc) 0 items.

Definition recipients_total (items : list EmailMetadata) : nat :=
  fold_right (fun item acc => length (recipients item) + acc) 0 items.

(** A float between 0.0 and 1.0. *)
Definition unit_float (x : Float.float) : Prop :=
  (0 <= Float.mant x)%Z /\ (Float.expo x <= 0)%Z
  /\ (Float.mant x <= 2 ^ (- Float.expo x))%Z.

(** A block lies in the columns [blo..bhi] of [b]. *)
Definition in_cols (blo bhi : nat) (best : Difflib.block) : Prop :=
  blo <= snd (fst best) /\ snd (fst best) + snd best <= bhi.

Definition span_a (queue : list (nat * nat * nat * nat)) : nat :=
  fold_right (fun q acc => let '(alo, ahi, _, _) := q in (ahi - alo) + acc) 0 queue.

Definition span_b (queue : list (nat * nat * nat * nat)) : nat :=
  fold_right (fun q acc => let '(_, _, blo, bhi) := q in (bhi - blo) + acc) 0 queue.

Definition ranges_ok (queue : list (nat * nat * nat * nat)) : Prop :=
  Forall (fun q => let '(alo, ahi, blo, bhi) := q in alo <= ahi /\ blo <= bhi) queue.

(** [groups_take r]: every group of [r] takes a character at least. *)
Fixpoint groups_take (r : regex) : bool :=
  match r with
  | Cat r1 r2 => groups_take r1 && groups_take r2
  | Rep _ _ _ r1 => groups_take r1
  | Group _ r1 => takes_some r1 && groups_take r1
  | _ => true
  end.

(** A candidate [iter_email_files] lets through: a file whose suffix, in
    lower case, is allowed and is not one of Outlook's. *)
Definition qualifies (settings : HVDCSettings) (c : candidate) : bool :=
  is_file c
  && negb (set_in (lower (suffix c)) (map lower (outlook_extensions settings)))
  && set_in (lower (suffix c)) (map lower (allowed_extensions settings)).

(** The text before the first [sep] of [s], all of [s] if it has none. *)
Fixpoint before (sep : ascii) (s : str) : str :=
  match s with
  | [] => []
  | c :: t => if ch_eqb c sep then [] else c :: before sep t
  end.

(** The entry of a directory. *)
Definition entry_of (f : folder) : folder_entry :=
  {| entry_folder := folder_name f;
     entry_path := folder_resolved f;
     entry_cases := sorted (set_update [] (extracted (normalize_subject (Some (folder_name f)))));
     entry_site := get_default SITE_ALIASES (normalize_subject (Some (before "_" (folder_name f))))
                     (upper (strip (before "_" (folder_name f)))) |}.

(** * Properties *)

(** ** Characters *)

Lemma code_inj (a b : ascii) : code a = code b -> a = b.
Proof.
  unfold code; intros H.
  rewrite <- (ascii_nat_embedding a), <- (ascii_nat_embedding b).
  now rewrite H.
Qed.

Lemma ch_eqb_eq (a b : ascii) : ch_eqb a b = true <-> a = b.
Proof.
  unfold ch_eqb; rewrite Nat.eqb_eq; split.
  - apply code_inj.
  - now intros ->.
Qed.

Lemma str_eqb_eq (a b : str) : str_eqb a b = true <-> a = b.
Proof.
  revert b; induction a as [|x a IH]; intros [|y b]; simpl;
    try (split; [discriminate | discriminate]); try tauto.
  rewrite andb_true_iff, ch_eqb_eq, IH.
  split; [intros [-> ->]; reflexivity | intros H; inversion H; auto].
Qed.

Lemma str_eqb_refl (a : str) : str_eqb a a = true.
Proof. now apply str_eqb_eq. Qed.

Lemma all_ascii_complete (c : ascii) : In c all_ascii.
Proof.
  unfold all_ascii; apply in_map_iff.
  exists (nat_of_ascii c); split.
  - apply ascii_nat_embedding.
  - apply in_seq; pose proof (nat_ascii_bounded c); lia.
Qed.

Lemma forall_ascii (P : ascii -> bool) :
  forallb P all_ascii = true -> forall c, P c = true.
Proof.
  intros H c; rewrite forallb_forall in H; apply H, all_ascii_complete.
Qed.

Lemma to_upper_to_lower (c : ascii) : to_upper (to_lower c) = to_upper c.
Proof.
  apply ch_eqb_eq; revert c.
  apply (forall_ascii (fun c => ch_eqb (to_upper (to_lower c)) (to_upper c))).
  vm_compute; reflexivity.
Qed.

Lemma to_upper_idem (c : ascii) : to_upper (to_upper c) = to_upper c.
Proof.
  apply ch_eqb_eq; revert c.
  apply (forall_ascii (fun c => ch_eqb (to_upper (to_upper c)) (to_upper c))).
  vm_compute; reflexivity.
Qed.

Lemma upper_lower (s : str) : upper (lower s) = upper s.
Proof.
  unfold upper, lower; rewrite map_map; apply map_ext, to_upper_to_lower.
Qed.

Lemma upper_idem (s : str) : upper (upper s) = upper s.
Proof.
  unfold upper; rewrite map_map; apply map_ext, to_upper_idem.
Qed.

(** ** The order of strings *)

Lemma str_ltb_irrefl (a : str) : str_ltb a a = false.
Proof.
  induction a as [|x a IH]; simpl; [reflexivity|].
  now rewrite Nat.ltb_irrefl.
Qed.

Lemma str_ltb_trans (a b c : str) :
  str_ltb a b = true -> str_ltb b c = true -> str_ltb a c = true.
Proof.
  revert b c; induction a as [|x a IH]; intros [|y b] [|z c]; simpl;
    try discriminate; try reflexivity.
  destruct (Nat.ltb_spec (code x) (code y)), (Nat.ltb_spec (code y) (code x)),
    (Nat.ltb_spec (code y) (code z)), (Nat.ltb_spec (code z) (code y)),
    (Nat.ltb_spec (code x) (code z)), (Nat.ltb_spec (code z) (code x));
    try discriminate; try reflexivity; try lia.
  apply IH.
Qed.

Lemma str_ltb_asym (a b : str) : str_ltb a b = true -> str_ltb b a = false.
Proof.
  intros H; destruct (str_ltb b a) eqn:E; [|reflexivity].
  pose proof (str_ltb_trans _ _ _ H E) as T.
  now rewrite str_ltb_irrefl in T.
Qed.

Lemma str_ltb_total (a b : str) :
  str_ltb a b = false -> str_ltb b a = false -> a = b.
Proof.
  revert b; induction a as [|x a IH]; intros [|y b]; simpl;
    try discriminate; try reflexivity.
  destruct (Nat.ltb_spec (code x) (code y)), (Nat.ltb_spec (code y) (code x));
    try discriminate; try lia.
  intros Hab Hba; f_equal; [apply code_inj; lia | now apply IH].
Qed.

Lemma str_leb_refl (a : str) : str_leb a a = true.
Proof. unfold str_leb; now rewrite str_ltb_irrefl. Qed.

Lemma str_leb_total (a b : str) : str_leb a b = false -> str_leb b a = true.
Proof.
  unfold str_leb; intros H; apply negb_false_iff in H.
  now rewrite (str_ltb_asym _ _ H).
Qed.

Lemma str_leb_trans (a b c : str) :
  str_leb a b = true -> str_leb b c = true -> str_leb a c = true.
Proof.
  unfold str_leb; rewrite !negb_true_iff; intros Hba Hcb.
  destruct (str_ltb c a) eqn:Hca; [|reflexivity].
  destruct (str_ltb a b) eqn:Hab.
  - now rewrite (str_ltb_trans _ _ _ Hca Hab) in Hcb.
  - pose proof (str_ltb_total _ _ Hab Hba); subst b; congruence.
Qed.

Lemma str_leb_ltb (a b : str) : str_leb a b = true -> a <> b -> str_ltb a b = true.
Proof.
  unfold str_leb; rewrite negb_true_iff; intros Hba Hne.
  destruct (str_ltb a b) eqn:Hab; [reflexivity|].
  exfalso; apply Hne; now apply str_ltb_total.
Qed.

(** ** Sets and [sorted] *)

Lemma set_in_In (x : str) (s : pyset) : set_in x s = true <-> In x s.
Proof.
  unfold set_in; rewrite existsb_exists; split.
  - intros [y [Hy E]]; apply str_eqb_eq in E; now subst.
  - intros H; exists x; split; [assumption | apply str_eqb_refl].
Qed.

Lemma set_add_In (s : pyset) (x y : str) : In y (set_add s x) <-> In y s \/ y = x.
Proof.
  unfold set_add; destruct (set_in x s) eqn:E.
  - apply set_in_In in E; split; [tauto | intros [H | ->]; assumption].
  - rewrite in_app_iff; simpl; intuition.
Qed.

Lemma set_add_NoDup (s : pyset) (x : str) : NoDup s -> NoDup (set_add s x).
Proof.
  unfold set_add; intros H; destruct (set_in x s) eqn:E; [assumption|].
  assert (~ In x s) as Hx by (rewrite <- set_in_In; congruence).
  clear E; induction H as [|y s Hy Hs IH]; simpl.
  - constructor; [intros [] | constructor].
  - constructor.
    + rewrite in_app_iff; simpl; intros [H | [H | []]]; [tauto|].
      apply Hx; left; congruence.
    + apply IH; intros H; apply Hx; now right.
Qed.

Lemma fold_set_add_In {A : Type} (f : A -> str) (xs : list A) (s : pyset) (y : str) :
  In y (fold_left (fun acc m => set_add acc (f m)) xs s) <-> In y s \/ In y (map f xs).
Proof.
  revert s; induction xs as [|x xs IH]; intros s; simpl; [tauto|].
  rewrite IH, set_add_In; intuition.
Qed.

Lemma fold_set_add_NoDup {A : Type} (f : A -> str) (xs : list A) (s : pyset) :
  NoDup s -> NoDup (fold_left (fun acc m => set_add acc (f m)) xs s).
Proof.
  revert s; induction xs as [|x xs IH]; intros s H; simpl; [assumption|].
  apply IH, set_add_NoDup, H.
Qed.

Lemma set_update_fold (s : pyset) (xs : list str) :
  set_update s xs = fold_left (fun acc m => set_add acc (id m)) xs s.
Proof. reflexivity. Qed.

Lemma set_update_In (s : pyset) (xs : list str) (y : str) :
  In y (set_update s xs) <-> In y s \/ In y xs.
Proof. rewrite set_update_fold, fold_set_add_In, map_id; tauto. Qed.

Lemma set_update_NoDup (s : pyset) (xs : list str) : NoDup s -> NoDup (set_update s xs).
Proof. rewrite set_update_fold; apply fold_set_add_NoDup. Qed.

Lemma insert_sorted_perm (x : str) (l : list str) : Permutation (insert_sorted x l) (x :: l).
Proof.
  induction l as [|y l IH]; simpl; [reflexivity|].
  destruct (str_leb x y); [reflexivity|].
  rewrite IH; apply perm_swap.
Qed.

Lemma sorted_perm (l : list str) : Permutation (sorted l) l.
Proof.
  induction l as [|x l IH]; simpl; [reflexivity|].
  rewrite insert_sorted_perm; now constructor.
Qed.

Lemma insert_sorted_sorted (x : str) (l : list str) :
  StronglySorted str_le l -> StronglySorted str_le (insert_sorted x l).
Proof.
  induction 1 as [|y l Hl IH Hy]; simpl.
  - constructor; constructor.
  - destruct (str_leb x y) eqn:E.
    + constructor; [now constructor|].
      constructor; [exact E|].
      eapply Forall_impl; [|exact Hy].
      intros z Hz; eapply str_leb_trans; eassumption.
    + constructor; [exact IH|].
      eapply Permutation_Forall; [symmetry; apply insert_sorted_perm|].
      constructor; [now apply str_leb_total | exact Hy].
Qed.

Lemma sorted_sorted (l : list str) : StronglySorted str_le (sorted l).
Proof.
  induction l as [|x l IH]; simpl; [constructor | now apply insert_sorted_sorted].
Qed.

Lemma sorted_NoDup (l : list str) : NoDup l -> NoDup (sorted l).
Proof. intros H; eapply Permutation_NoDup; [symmetry; apply sorted_perm | exact H]. Qed.

Lemma sorted_strict (l : list str) :
  NoDup l -> StronglySorted str_le l -> StronglySorted str_lt l.
Proof.
  intros Hn Hs; induction Hs as [|x l Hl IH Hx]; [constructor|].
  inversion Hn as [|? ? Hnx Hnl]; subst.
  constructor; [now apply IH|].
  rewrite Forall_forall in *; intros y Hy.
  apply str_leb_ltb; [now apply Hx|]; intros ->; contradiction.
Qed.

(** ** The matcher: what a match and its groups are made of *)

Lemma eats_refl (P : ascii -> bool) (s : str) (c : caps) : eats P s (s, c).
Proof. now exists []. Qed.

Lemma eats_trans (P : ascii -> bool) (s : str) (o1 o2 : outcome) :
  eats P s o1 -> eats P (fst o1) o2 -> eats P s o2.
Proof.
  intros [p1 [E1 H1]] [p2 [E2 H2]]; exists (p1 ++ p2); split.
  - now rewrite E1 at 1; rewrite E2 at 1; rewrite app_assoc.
  - now rewrite forallb_app, H1, H2.
Qed.

Lemma consumed_app (pre rest : str) : consumed (pre ++ rest) rest = pre.
Proof.
  unfold consumed; rewrite length_app, Nat.add_sub.
  rewrite firstn_app, Nat.sub_diag, firstn_all; simpl; apply app_nil_r.
Qed.

Lemma eats_consumed (P : ascii -> bool) (s : str) (o : outcome) :
  eats P s o -> forallb P (consumed s (fst o)) = true.
Proof. intros [pre [-> H]]; now rewrite consumed_app. Qed.

Section Matcher.

Variable ic : bool.

Lemma leaf_eats (P : ascii -> bool) (r : regex) (ch : ascii) (t : str) (c : caps) :
  forallb (fun ch => implb (leaf_accepts ic r ch) (P ch)) all_ascii = true ->
  leaf_accepts ic r ch = true ->
  eats P (ch :: t) (t, c).
Proof.
  intros H A; exists [ch]; split; [reflexivity|]; simpl.
  pose proof (forall_ascii _ H ch) as I; cbv beta in I.
  rewrite A in I; simpl in I; now rewrite I.
Qed.

Lemma rep_run_eats (P : ascii -> bool) (body : str -> caps -> list outcome) :
  (forall s c o, In o (body s c) -> eats P s o) ->
  forall greedy fuel lo hi s c o,
    In o (rep_run body greedy fuel lo hi s c) -> eats P s o.
Proof.
  intros Hb greedy fuel; induction fuel as [|fuel IH]; intros lo hi s c o; simpl.
  - destruct (lo =? 0); simpl; [intros [<- | []]; apply eats_refl | intros []].
  - set (stop := if lo =? 0 then [(s, c)] else []).
    assert (Hstop : In o stop -> eats P s o).
    { unfold stop; destruct (lo =? 0); simpl;
        [intros [<- | []]; apply eats_refl | intros []]. }
    set (more := match hi with Some 0 => [] | _ => _ end).
    assert (Hmore : In o more -> eats P s o).
    { unfold more; clear more.
      assert (G : In o (flat_map
                (fun o0 : outcome =>
                   if length (fst o0) <? length s
                   then rep_run body greedy fuel (pred lo) (option_map pred hi)
                          (fst o0) (snd o0)
                   else []) (body s c)) -> eats P s o).
      { rewrite in_flat_map; intros [o1 [H1 H2]].
        destruct (length (fst o1) <? length s); [|destruct H2].
        eapply eats_trans; [apply (Hb _ _ _ H1) | apply (IH _ _ _ _ _ H2)]. }
      destruct hi as [[|h]|]; [intros [] | exact G | exact G]. }
    destruct greedy; rewrite in_app_iff; tauto.
Qed.

Lemma run_eats (P : ascii -> bool) (r : regex) :
  within ic P r = true ->
  forall s c o, In o (run ic r s c) -> eats P s o.
Proof.
  induction r as [| a | | negate items | r1 IH1 r2 IH2 | greedy lo hi r1 IH1 | n r1 IH1];
    intros W s c o; simpl.
  - intros [<- | []]; apply eats_refl.
  - destruct s as [|ch t]; [intros []|].
    destruct (lit_match ic a ch) eqn:E; [|intros []].
    intros [<- | []]; eapply leaf_eats; [exact W | exact E].
  - destruct s as [|ch t]; [intros []|].
    destruct (code ch =? 10) eqn:E; [intros []|].
    intros [<- | []]; eapply leaf_eats; [exact W | simpl; now rewrite E].
  - destruct s as [|ch t]; [intros []|].
    destruct (xorb negate (set_mem ic items ch)) eqn:E; [|intros []].
    intros [<- | []]; eapply leaf_eats; [exact W | exact E].
  - simpl in W; apply andb_true_iff in W; destruct W as [W1 W2].
    rewrite in_flat_map; intros [o1 [H1 H2]].
    eapply eats_trans; [apply (IH1 W1 _ _ _ H1) | apply (IH2 W2 _ _ _ H2)].
  - apply rep_run_eats; intros s0 c0 o0; apply IH1, W.
  - rewrite in_map_iff; intros [o1 [<- H1]]; simpl.
    destruct (IH1 W _ _ _ H1) as [pre [E F]]; now exists pre.
Qed.

Lemma rep_run_caps (Q : nat -> ascii -> bool) (body : str -> caps -> list outcome) :
  (forall s c o, Forall (cap_ok Q) c -> In o (body s c) -> Forall (cap_ok Q) (snd o)) ->
  forall greedy fuel lo hi s c o,
    Forall (cap_ok Q) c ->
    In o (rep_run body greedy fuel lo hi s c) -> Forall (cap_ok Q) (snd o).
Proof.
  intros Hb greedy fuel; induction fuel as [|fuel IH]; intros lo hi s c o Hc; simpl.
  - destruct (lo =? 0); simpl; [intros [<- | []]; exact Hc | intros []].
  - set (stop := if lo =? 0 then [(s, c)] else []).
    assert (Hstop : In o stop -> Forall (cap_ok Q) (snd o)).
    { unfold stop; destruct (lo =? 0); simpl;
        [intros [<- | []]; exact Hc | intros []]. }
    set (more := match hi with Some 0 => [] | _ => _ end).
    assert (Hmore : In o more -> Forall (cap_ok Q) (snd o)).
    { unfold more; clear more.
      assert (G : In o (flat_map
                (fun o0 : outcome =>
                   if length (fst o0) <? length s
                   then rep_run body greedy fuel (pred lo) (option_map pred hi)
                          (fst o0) (snd o0)
                   else []) (body s c)) -> Forall (cap_ok Q) (snd o)).
      { rewrite in_flat_map; intros [o1 [H1 H2]].
        destruct (length (fst o1) <? length s); [|destruct H2].
        eapply IH; [|exact H2]. eapply Hb; eassumption. }
      destruct hi as [[|h]|]; [intros [] | exact G | exact G]. }
    destruct greedy; rewrite in_app_iff; tauto.
Qed.

Lemma run_caps (Q : nat -> ascii -> bool) (r : regex) :
  groups_within ic Q r = true ->
  forall s c o,
    Forall (cap_ok Q) c -> In o (run ic r s c) -> Forall (cap_ok Q) (snd o).
Proof.
  induction r as [| a | | negate items | r1 IH1 r2 IH2 | greedy lo hi r1 IH1 | n r1 IH1];
    intros W s c o Hc; simpl.
  - intros [<- | []]; exact Hc.
  - destruct s as [|ch t]; [intros []|].
    destruct (lit_match ic a ch); [|intros []]; intros [<- | []]; exact Hc.
  - destruct s as [|ch t]; [intros []|].
    destruct (code ch =? 10); [intros []|]; intros [<- | []]; exact Hc.
  - destruct s as [|ch t]; [intros []|].
    destruct (xorb negate (set_mem ic items ch)); [|intros []];
      intros [<- | []]; exact Hc.
  - simpl in W; apply andb_true_iff in W; destruct W as [W1 W2].
    rewrite in_flat_map; intros [o1 [H1 H2]].
    eapply IH2; [exact W2 | | exact H2]. eapply IH1; eassumption.
  - apply rep_run_caps; [|exact Hc]. intros s0 c0 o0; apply IH1, W.
  - simpl in W; apply andb_true_iff in W; destruct W as [W1 W2].
    rewrite in_map_iff; intros [o1 [<- H1]]; simpl.
    constructor; [|eapply IH1; eassumption].
    unfold cap_ok; simpl. eapply eats_consumed, run_eats; eassumption.
Qed.

End Matcher.

Lemma scan_In (p : pattern) (fuel : nat) (s : str) (m : match_obj) :
  In m (scan p fuel s) ->
  exists s0 o, In o (run (ignorecase p) (rx p) s0 [])
               /\ m = Match (consumed s0 (fst o)) (snd o).
Proof.
  revert s; induction fuel as [|fuel IH]; intros s; simpl; [intros []|].
  assert (N : In m (match s with [] => [] | _ :: t => scan p fuel t end) ->
              exists s0 o, In o (run (ignorecase p) (rx p) s0 [])
                           /\ m = Match (consumed s0 (fst o)) (snd o)).
  { destruct s as [|x t]; [intros [] | apply IH]. }
  unfold match_at.
  destruct (run (ignorecase p) (rx p) s []) as [|[rest c] l] eqn:E; [exact N|].
  intros [<- | H].
  - exists s, (rest, c); split; [rewrite E; now left | reflexivity].
  - destruct (length rest <? length s); [now apply IH in H | now apply N].
Qed.

Lemma finditer_text (P : ascii -> bool) (p : pattern) (s : str) (m : match_obj) :
  within (ignorecase p) P (rx p) = true ->
  In m (finditer p s) -> forallb P (m_text m) = true.
Proof.
  intros W H; apply scan_In in H; destruct H as [s0 [o [H ->]]]; simpl.
  eapply eats_consumed, run_eats; eassumption.
Qed.

Lemma cap_get_ok (Q : nat -> ascii -> bool) (n : nat) (c : caps) :
  Forall (cap_ok Q) c ->
  forallb (Q n) (match cap_get n c with Some v => v | None => [] end) = true.
Proof.
  induction 1 as [|[k v] c Hk Hc IH]; simpl; [reflexivity|].
  destruct (Nat.eqb_spec k n) as [->|]; [exact Hk | exact IH].
Qed.

Lemma finditer_group (Q : nat -> ascii -> bool) (p : pattern) (s : str)
    (m : match_obj) (n : nat) :
  groups_within (ignorecase p) Q (rx p) = true ->
  In m (finditer p s) -> forallb (Q (S n)) (group (S n) m) = true.
Proof.
  intros W H; apply scan_In in H; destruct H as [s0 [o [H ->]]]; simpl.
  apply cap_get_ok; eapply run_caps; [exact W | constructor | exact H].
Qed.

(** ** [find_case_codes]: the shape of the result *)

Lemma getitem_rule (key : str) :
  has_key COMPILED_PATTERNS key = true ->
  getitem COMPILED_PATTERNS key = Ok (rule key).
Proof.
  unfold has_key, getitem, rule, get_default.
  destruct (dict_get COMPILED_PATTERNS key); [reflexivity | discriminate].
Qed.

Lemma fold_set_add_map {A : Type} (f : A -> str) (xs : list A) (s : pyset) :
  fold_left (fun acc m => set_add acc (f m)) xs s = set_update s (map f xs).
Proof.
  revert s; induction xs as [|x xs IH]; intros s; simpl; [reflexivity | apply IH].
Qed.

Lemma set_update_app (s : pyset) (xs ys : list str) :
  set_update s (xs ++ ys) = set_update (set_update s xs) ys.
Proof. apply fold_left_app. Qed.

Lemma find_case_codes_eq (text : option str) :
  find_case_codes text
  = Ok (sorted (set_update [] (extracted (normalize_subject text)))).
Proof.
  unfold find_case_codes, find_case_codes_in, find_case_codes_try.
  rewrite !getitem_rule by reflexivity; unfold bind.
  rewrite !fold_set_add_map.
  unfold extracted; now rewrite !set_update_app.
Qed.

Lemma find_case_codes_in_cases (patterns : list (str * pattern)) (text : option str) :
  match missing_key patterns with
  | Some k => find_case_codes_in patterns text
              = Raise (PatternMatchError (str_of_key_error k))
  | None => exists l, find_case_codes_in patterns text = Ok l
  end.
Proof.
  unfold missing_key, lookup_keys, find, has_key,
    find_case_codes_in, find_case_codes_try, getitem.
  generalize (L "HVDC_ADOPT") (L "HVDC_GENERIC") (L "JPTW_GRM") (L "TRAILING").
  intros k1 k2 k3 k4.
  destruct (dict_get patterns k1); simpl; [|reflexivity].
  destruct (dict_get patterns k2); simpl; [|reflexivity].
  destruct (dict_get patterns k3); simpl; [|reflexivity].
  destruct (dict_get patterns k4); simpl; [|reflexivity].
  eexists; reflexivity.
Qed.

(** ** The characters of a canonical code *)

Lemma code_char_upper (c : ascii) : code_char c = true -> to_upper c = c.
Proof.
  intros H; apply ch_eqb_eq; revert H.
  generalize (forall_ascii
    (fun c => implb (code_char c) (ch_eqb (to_upper c) c)) eq_refl c).
  cbv beta; destruct (code_char c); simpl; [auto | discriminate 2].
Qed.

Lemma code_char_not_space (c : ascii) : code_char c = true -> is_space c = false.
Proof.
  generalize (forall_ascii
    (fun c => implb (code_char c) (negb (is_space c))) eq_refl c).
  cbv beta; destruct (code_char c); simpl; [|discriminate 2].
  now intros H _; apply negb_true_iff.
Qed.

Lemma digit_code_char (c : ascii) : is_digit c = true -> code_char c = true.
Proof.
  unfold code_char, plain_char; intros ->; now rewrite orb_true_r.
Qed.

Lemma forallb_impl {A : Type} (P Q : A -> bool) (l : list A) :
  (forall x, P x = true -> Q x = true) -> forallb P l = true -> forallb Q l = true.
Proof.
  intros I; rewrite !forallb_forall; auto.
Qed.

Lemma forallb_upper (P : ascii -> bool) (s : str) :
  forallb P (upper s) = forallb (fun c => P (to_upper c)) s.
Proof.
  unfold upper; induction s as [|c s IH]; simpl; [reflexivity | now rewrite IH].
Qed.

Lemma upper_stable (s : str) : forallb code_char s = true -> upper s = s.
Proof.
  induction s as [|c s IH]; simpl; [reflexivity|].
  rewrite andb_true_iff; intros [Hc Hs]; now rewrite (code_char_upper _ Hc), IH.
Qed.

(** A match of a rule whose text is reported whole, upper-cased. *)
Lemma whole_match_within (P : ascii -> bool) (p : pattern) (work e : str) :
  groups (rx p) = 0 ->
  within (ignorecase p) (fun c => P (to_upper c)) (rx p) = true ->
  In e (map upper (findall p work)) -> forallb P e = true.
Proof.
  unfold findall; intros -> W; rewrite map_map, in_map_iff.
  intros [m [<- H]]; rewrite forallb_upper; simpl.
  exact (finditer_text _ _ _ _ W H).
Qed.

(** A match of a rule of which the only group is reported, upper-cased. *)
Lemma group_match_within (P : ascii -> bool) (p : pattern) (work e : str) :
  groups (rx p) = 1 ->
  groups_within (ignorecase p) (fun _ c => P (to_upper c)) (rx p) = true ->
  In e (map upper (findall p work)) -> forallb P e = true.
Proof.
  unfold findall; intros -> W; rewrite map_map, in_map_iff.
  intros [m [<- H]]; rewrite forallb_upper.
  exact (finditer_group (fun _ c => P (to_upper c)) _ _ _ 0 W H).
Qed.

Lemma jptw_grm_shape (work e : str) :
  In e (map jptw_grm_code (finditer (rule (L "JPTW_GRM")) work)) ->
  jptw_grm_form e.
Proof.
  rewrite in_map_iff; intros [m [<- H]]; unfold jptw_grm_code.
  assert (W : groups_within (ignorecase (rule (L "JPTW_GRM")))
                (fun _ => is_digit) (rx (rule (L "JPTW_GRM"))) = true)
    by (vm_compute; reflexivity).
  exists (group 1 m), (group 2 m); repeat split.
  - exact (finditer_group (fun _ => is_digit) _ _ _ 0 W H).
  - exact (finditer_group (fun _ => is_digit) _ _ _ 1 W H).
Qed.

Lemma extracted_shape (work e : str) :
  In e (extracted work) -> forallb plain_char e = true \/ jptw_grm_form e.
Proof.
  unfold extracted; rewrite !in_app_iff; intros [H | [H | [H | H]]].
  - left; revert H; apply whole_match_within; vm_compute; reflexivity.
  - left; revert H; apply whole_match_within; vm_compute; reflexivity.
  - right; revert H; apply jptw_grm_shape.
  - left; revert H; apply group_match_within; vm_compute; reflexivity.
Qed.

Lemma plain_code_char (c : ascii) : plain_char c = true -> code_char c = true.
Proof. unfold code_char; now intros ->. Qed.

Lemma jptw_grm_form_chars (e : str) : jptw_grm_form e -> forallb code_char e = true.
Proof.
  intros [n [m [Hn [Hm ->]]]].
  rewrite !forallb_app, !andb_true_iff.
  split; [reflexivity|]; split; [|split; [reflexivity|]].
  - revert Hn; apply forallb_impl, digit_code_char.
  - revert Hm; apply forallb_impl, digit_code_char.
Qed.

Lemma extracted_chars (work e : str) :
  In e (extracted work) -> forallb code_char e = true.
Proof.
  intros H; destruct (extracted_shape _ _ H) as [P | J].
  - revert P; apply forallb_impl, plain_code_char.
  - now apply jptw_grm_form_chars.
Qed.

(** White space is stripped from no code. *)
Lemma lstrip_head (s : str) : forallb (fun c => negb (is_space c)) s = true -> lstrip s = s.
Proof.
  destruct s as [|c s]; simpl; [reflexivity|].
  rewrite andb_true_iff, negb_true_iff; now intros [-> _].
Qed.

Lemma strip_no_space (s : str) : forallb (fun c => negb (is_space c)) s = true -> strip s = s.
Proof.
  intros H; unfold strip, rstrip; rewrite (lstrip_head _ H).
  rewrite lstrip_head; [apply rev_involutive|].
  rewrite forallb_forall in *; intros c Hc; apply H; now apply in_rev.
Qed.

Lemma code_strip (e : str) : forallb code_char e = true -> strip e = e.
Proof.
  intros H; apply strip_no_space; revert H; apply forallb_impl.
  intros c Hc; now rewrite (code_char_not_space _ Hc).
Qed.

(** ** Duplicates, with and without case *)

Lemma lower_inj_codes (a b : str) :
  forallb code_char a = true -> forallb code_char b = true ->
  lower a = lower b -> a = b.
Proof.
  intros Ha Hb E.
  rewrite <- (upper_stable _ Ha), <- (upper_stable _ Hb).
  now rewrite <- (upper_lower a), <- (upper_lower b), E.
Qed.

Lemma first_seen_from_In (seen xs : list str) (y : str) :
  Forall (fun e => forallb code_char e = true) xs ->
  In y (first_seen_from seen xs) <-> In y xs /\ ~ In (lower y) seen.
Proof.
  intros H; revert seen; induction H as [|x t Hx Ht IH]; intros seen; simpl; [tauto|].
  destruct (set_in (lower x) seen) eqn:E.
  - apply set_in_In in E; rewrite IH; split; [tauto|].
    intros [[-> | H] N]; [contradiction | tauto].
  - assert (~ In (lower x) seen) as N by (rewrite <- set_in_In; congruence).
    simpl; rewrite IH; simpl; split.
    + intros [-> | [H1 H2]]; [tauto|]. split; [tauto|]. intros H3; apply H2; now right.
    + intros [[-> | H1] H2]; [now left|].
      destruct (list_eq_dec ascii_dec x y) as [->|D]; [now left|].
      right; split; [exact H1|]; intros [H3 | H3]; [|contradiction].
      apply D; rewrite Forall_forall in Ht.
      now apply lower_inj_codes; [| apply Ht |].
Qed.

Lemma first_seen_from_NoDup (seen xs : list str) : NoDup (first_seen_from seen xs).
Proof.
  revert seen; induction xs as [|x t IH]; intros seen; simpl; [constructor|].
  destruct (set_in (lower x) seen); [apply IH|].
  constructor; [|apply IH].
  clear IH; generalize (eq_refl (lower x)).
  generalize (lower x) at 1 3; intros k Hk.
  assert (In k (k :: seen)) as Hin by now left.
  revert Hin; generalize (k :: seen); clear seen; intros seen Hin.
  revert seen Hin; induction t as [|z t IH]; intros seen Hin; simpl; [tauto|].
  destruct (set_in (lower z) seen) eqn:E; [now apply IH|].
  simpl; intros [-> | H].
  - assert (In (lower x) seen) by (now rewrite <- Hk).
    apply set_in_In in H; congruence.
  - revert H; apply IH; now right.
Qed.

Lemma NoDup_map_lower (l : list str) :
  Forall (fun e => forallb code_char e = true) l -> NoDup l -> NoDup (map lower l).
Proof.
  intros F N; induction N as [|x l Hx Hl IH]; simpl; [constructor|].
  inversion F as [|? ? Fx Fl]; subst.
  constructor; [|now apply IH].
  rewrite in_map_iff; intros [y [E Hy]]; apply Hx.
  rewrite Forall_forall in Fl.
  now rewrite (lower_inj_codes x y Fx (Fl _ Hy) (eq_sym E)).
Qed.

(** The members of the result are the extracted codes. *)
Lemma result_members (text : option str) (l : list str) :
  find_case_codes text = Ok l ->
  forall e, In e l <-> In e (extracted (normalize_subject text)).
Proof.
  rewrite find_case_codes_eq; intros [= <-] e; split; intros H.
  - apply (Permutation_in _ (sorted_perm _)) in H.
    apply set_update_In in H; destruct H as [[] | H]; exact H.
  - apply (Permutation_in _ (Permutation_sym (sorted_perm _))).
    apply set_update_In; now right.
Qed.

Lemma result_NoDup (text : option str) (l : list str) :
  find_case_codes text = Ok l -> NoDup l.
Proof.
  rewrite find_case_codes_eq; intros [= <-].
  apply sorted_NoDup, set_update_NoDup; constructor.
Qed.

Lemma result_chars (text : option str) (l : list str) :
  find_case_codes text = Ok l -> Forall (fun e => forallb code_char e = true) l.
Proof.
  intros H; rewrite Forall_forall; intros e He.
  apply (result_members _ _ H) in He; exact (extracted_chars _ _ He).
Qed.

(** * The case-code extractor *)

Lemma find_case_codes_ok (text : option str) : exists l, find_case_codes text = Ok l.
Proof. eexists; apply find_case_codes_eq. Qed.

(** C9.  For every input the list [find_case_codes] returns is in ascending
    order of Python strings: every element is at most every later one. *)
Theorem find_case_codes_ascending (text : option str) :
  exists l, find_case_codes text = Ok l /\ StronglySorted str_le l.
Proof.
  exists (sorted (set_update [] (extracted (normalize_subject text)))); split.
  - apply find_case_codes_eq.
  - apply sorted_sorted.
Qed.

(** C1, as stated, fails: the two codes of this text are extracted as ZZ, AA
    and returned as AA, ZZ. *)
Lemma find_case_codes_not_in_extraction_order :
  let text := Some (L "HVDC-ADOPT-ZZ-0002 HVDC-ADOPT-AA-0001") in
  first_seen (extracted (normalize_subject text))
    = [L "HVDC-ADOPT-ZZ-0002"; L "HVDC-ADOPT-AA-0001"]
  /\ find_case_codes text = Ok [L "HVDC-ADOPT-AA-0001"; L "HVDC-ADOPT-ZZ-0002"]
  /\ find_case_codes text <> Ok (first_seen (extracted (normalize_subject text))).
Proof.
  vm_compute; repeat split; discriminate.
Qed.

(** C1, amended.  For every input text the result of [find_case_codes] holds
    the canonical codes of the extraction-order list with later duplicates
    dropped, each once, arranged in strictly ascending order of strings
    (not in extraction order). *)
Theorem find_case_codes_first_seen_sorted (text : option str) :
  exists l, find_case_codes text = Ok l
            /\ Permutation l (first_seen (extracted (normalize_subject text)))
            /\ StronglySorted str_lt l.
Proof.
  destruct (find_case_codes_ok text) as [l E].
  assert (S : StronglySorted str_le l)
    by (rewrite find_case_codes_eq in E; injection E as <-; apply sorted_sorted).
  exists l; split; [exact E|]; split.
  - apply NoDup_Permutation.
    + exact (result_NoDup _ _ E).
    + apply first_seen_from_NoDup.
    + intros e; rewrite (result_members _ _ E e).
      unfold first_seen; rewrite first_seen_from_In.
      * simpl; tauto.
      * rewrite Forall_forall; intros x; apply extracted_chars.
  - apply sorted_strict; [exact (result_NoDup _ _ E) | exact S].
Qed.

(** C3, as stated, fails: the result at this input has neither code. *)
Lemma find_case_codes_prl_missing :
  ~ (exists l, find_case_codes (Some (L "PRL-O-046-O4(HE-0486) - status")) = Ok l
               /\ In (L "PRL-O-046-O4(HE-0486)") l
               /\ In (L "HVDC-ADOPT-HE-0486") l).
Proof.
  intros [l [E [H _]]]; vm_compute in E.
  injection E as <-; destruct H.
Qed.

(** C3, amended.  The registry has no PRL rule and no code [find_case_codes]
    reports holds a parenthesis, so a PRL token with its parenthetical suffix
    is reported for no input; for "PRL-O-046-O4(HE-0486) - status" the result
    does not hold the PRL token. *)
Theorem find_case_codes_no_prl_token :
  has_key COMPILED_PATTERNS (L "PRL") = false
  /\ (forall text, exists l,
        find_case_codes text = Ok l
        /\ Forall (fun e => ~ In "("%char e /\ ~ In ")"%char e) l)
  /\ (exists l, find_case_codes (Some (L "PRL-O-046-O4(HE-0486) - status")) = Ok l
                /\ ~ In (L "PRL-O-046-O4(HE-0486)") l).
Proof.
  split; [reflexivity|]; split.
  - intros text; destruct (find_case_codes_ok text) as [l E].
    exists l; split; [exact E|].
    pose proof (result_chars _ _ E) as C; rewrite Forall_forall in *.
    intros e He; specialize (C e He); rewrite forallb_forall in C.
    split; intros H; apply C in H; discriminate H.
  - exists []; split; [vm_compute; reflexivity | intros []].
Qed.

(** C4.  [find_case_codes] returns the empty list for the empty string and
    for [None], and for every string it returns a list (it raises nothing),
    with at most as many codes as the rules matched: none when no rule
    matches. *)
Theorem find_case_codes_never_raises :
  find_case_codes (Some (L "")) = Ok []
  /\ find_case_codes None = Ok []
  /\ forall s : str, exists l,
       find_case_codes (Some s) = Ok l
       /\ length l <= length (extracted (normalize_subject (Some s))).
Proof.
  split; [vm_compute; reflexivity|]; split; [vm_compute; reflexivity|].
  intros s; destruct (find_case_codes_ok (Some s)) as [l E].
  exists l; split; [exact E|].
  apply NoDup_incl_length; [exact (result_NoDup _ _ E)|].
  intros e; apply (result_members _ _ E).
Qed.

(** C5.  For every input the result of [find_case_codes] has no two values
    equal up to case; for the text with the same code twice the result holds
    HVDC-ADOPT-SCT-0136 once. *)
Theorem find_case_codes_no_duplicates :
  (forall text, exists l, find_case_codes text = Ok l /\ NoDup (map lower l))
  /\ (exists l,
        find_case_codes
          (Some (L "HVDC-ADOPT-SCT-0136 HVDC-ADOPT-SCT-0136 / GRM-123")) = Ok l
        /\ count_occ (list_eq_dec ascii_dec) l (L "HVDC-ADOPT-SCT-0136") = 1).
Proof.
  split.
  - intros text; destruct (find_case_codes_ok text) as [l E].
    exists l; split; [exact E|].
    apply NoDup_map_lower; [exact (result_chars _ _ E) | exact (result_NoDup _ _ E)].
  - exists [L "HVDC-ADOPT-SCT-0136"]; split; vm_compute; reflexivity.
Qed.

(** C6, as stated, fails: the code of a JPTW/GRM pair holds a slash. *)
Lemma find_case_codes_slash :
  find_case_codes (Some (L "JPTW-71 / GRM-123")) = Ok [L "JPTW-71/GRM-123"]
  /\ forallb plain_char (L "JPTW-71/GRM-123") = false.
Proof. vm_compute; split; reflexivity. Qed.

(** C6, amended.  Every string [find_case_codes] returns either consists of
    upper-case ASCII letters, digits and hyphens only, or is the code of a
    JPTW/GRM pair, JPTW-<digits>/GRM-<digits>; none has white space at
    either end. *)
Theorem find_case_codes_code_chars (text : option str) :
  exists l, find_case_codes text = Ok l
            /\ Forall (fun e => (forallb plain_char e = true \/ jptw_grm_form e)
                                /\ strip e = e) l.
Proof.
  destruct (find_case_codes_ok text) as [l E].
  exists l; split; [exact E|].
  rewrite Forall_forall; intros e He; split.
  - apply (extracted_shape (normalize_subject text)), (result_members _ _ E), He.
  - apply code_strip.
    pose proof (result_chars _ _ E) as C; rewrite Forall_forall in C; now apply C.
Qed.

(** C10.  The registry holds the four keys [find_case_codes] looks up; over
    any registry the function raises [PatternMatchError] exactly when one of
    these keys is missing (for the first such key) and returns a list
    otherwise; so with the registry of the program it raises for no input. *)
Theorem find_case_codes_error_unreachable :
  forallb (has_key COMPILED_PATTERNS) lookup_keys = true
  /\ (forall patterns text,
        match missing_key patterns with
        | Some k => find_case_codes_in patterns text
                    = Raise (PatternMatchError (str_of_key_error k))
        | None => exists l, find_case_codes_in patterns text = Ok l
        end)
  /\ forall text, exists l, find_case_codes text = Ok l.
Proof.
  split; [reflexivity|]; split; [exact find_case_codes_in_cases|].
  intros text; exact (find_case_codes_in_cases COMPILED_PATTERNS text).
Qed.

(** * The alias resolver *)

Lemma title_from_length (p : bool) (s : str) : length (title_from p s) = length s.
Proof.
  revert p; induction s as [|c s IH]; intros p; simpl; [reflexivity | now rewrite IH].
Qed.

Lemma dict_get_In {V : Type} (d : list (str * V)) (key : str) (v : V) :
  dict_get d key = Some v -> exists k, In (k, v) d.
Proof.
  induction d as [|[k w] d IH]; simpl; [discriminate|].
  destruct (str_eqb k key).
  - intros [= ->]; exists k; now left.
  - intros H; destruct (IH H) as [k' Hk']; exists k'; now right.
Qed.

Lemma get_default_non_empty (d : list (str * str)) (key default : str) :
  Forall (fun kv => snd kv <> []) d -> default <> [] -> get_default d key default <> [].
Proof.
  intros F D; unfold get_default.
  destruct (dict_get d key) as [v|] eqn:E; [|exact D].
  destruct (dict_get_In _ _ _ E) as [k Hk].
  rewrite Forall_forall in F; exact (F _ Hk).
Qed.

Lemma non_empty_length (s t : str) : length t = length s -> s <> [] -> t <> [].
Proof. destruct s, t; simpl; congruence. Qed.

(** C7, as stated, fails: a blank token is resolved to the empty string. *)
Lemma match_alias_blank_token :
  match_vendor_alias (Some (L "")) = Ok (L "")
  /\ match_site_alias (Some (L "  ")) = Ok (L "")
  /\ ~ (forall alias : str,
          exists v, match_vendor_alias (Some alias) = Ok v /\ v <> []).
Proof.
  split; [vm_compute; reflexivity|]; split; [vm_compute; reflexivity|].
  intros H; destruct (H (L "")) as [v [E N]].
  vm_compute in E; injection E as <-; now apply N.
Qed.

(** C7, amended.  "he" is resolved to "Hitachi Energy"; for every token that
    is not blank both resolvers return a non-empty string and raise
    nothing: the display name of the table when the normalised token is a
    key of it, otherwise the trimmed token, title-cased for a vendor and
    upper-cased for a site. *)
Theorem match_alias_non_empty :
  match_vendor_alias (Some (L "he")) = Ok (L "Hitachi Energy")
  /\ forall alias : str,
       strip alias <> [] ->
       exists v w,
         match_vendor_alias (Some alias) = Ok v /\ v <> []
         /\ v = match dict_get VENDOR_ALIASES (normalize_subject (Some alias)) with
                | Some name => name
                | None => title (strip alias)
                end
         /\ match_site_alias (Some alias) = Ok w /\ w <> []
         /\ w = match dict_get SITE_ALIASES (normalize_subject (Some alias)) with
                | Some name => name
                | None => upper (strip alias)
                end.
Proof.
  split; [vm_compute; reflexivity|].
  intros alias H.
  exists (get_default VENDOR_ALIASES (normalize_subject (Some alias)) (title (strip alias))),
         (get_default SITE_ALIASES (normalize_subject (Some alias)) (upper (strip alias))).
  repeat split.
  - apply get_default_non_empty.
    + repeat constructor; discriminate.
    + apply (non_empty_length (strip alias)); [apply title_from_length | exact H].
  - apply get_default_non_empty.
    + repeat constructor; discriminate.
    + apply (non_empty_length (strip alias)); [apply length_map | exact H].
Qed.

Lemma match_alias_non_empty_witness :
  exists v w,
    match_vendor_alias (Some (L " unknownxyz ")) = Ok v /\ v <> []
    /\ v = L "Unknownxyz"
    /\ match_site_alias (Some (L " unknownxyz ")) = Ok w /\ w <> []
    /\ w = L "UNKNOWNXYZ".
Proof.
  assert (H : strip (L " unknownxyz ") <> []) by (vm_compute; discriminate).
  destruct (proj2 match_alias_non_empty (L " unknownxyz ") H)
    as [v [w [Hv [Nv [Ev [Hw [Nw Ew]]]]]]].
  exists v, w; repeat split; assumption.
Defined.

(** * The similarity score *)

Import Difflib.

(** ** The matcher on two equal sequences *)

Lemma indices_from_spec (c : ascii) (b : str) (i0 j : nat) :
  In j (indices_from c b i0) <->
  i0 <= j /\ exists x, nth_error b (j - i0) = Some x /\ ch_eqb x c = true.
Proof.
  revert i0; induction b as [|y b IH]; intros i0; simpl.
  - split; [intros [] | intros [_ [x [H _]]]].
    destruct (j - i0); discriminate.
  - assert (T : In j (indices_from c b (S i0)) <->
                i0 < j /\ exists x, nth_error (y :: b) (j - i0) = Some x
                                    /\ ch_eqb x c = true).
    { rewrite IH; split; intros [H [x Hx]]; (split; [lia|]); exists x.
      - replace (j - i0) with (S (j - S i0)) by lia; exact Hx.
      - replace (j - i0) with (S (j - S i0)) in Hx by lia; exact Hx. }
    destruct (ch_eqb y c) eqn:E; simpl; rewrite ?T.
    + split.
      * intros [<- | [H Hx]]; [|split; [lia | exact Hx]].
        split; [lia|]; exists y; now rewrite Nat.sub_diag.
      * intros [H [x [Hx Hc]]].
        destruct (Nat.eq_dec i0 j) as [->|]; [now left|].
        right; split; [lia|]; now exists x.
    + split.
      * intros [H Hx]; split; [lia | exact Hx].
      * intros [H [x [Hx Hc]]].
        destruct (Nat.eq_dec i0 j) as [->|]; [|split; [lia | now exists x]].
        rewrite Nat.sub_diag in Hx; simpl in Hx; congruence.
Qed.

Lemma indices_from_sorted (c : ascii) (b : str) (i0 : nat) :
  StronglySorted lt (indices_from c b i0).
Proof.
  revert i0; induction b as [|y b IH]; intros i0; simpl; [constructor|].
  destruct (ch_eqb y c); [|apply IH].
  constructor; [apply IH|].
  rewrite Forall_forall; intros j Hj; apply indices_from_spec in Hj; lia.
Qed.

Section SelfMatch.

Variable s : str.

Lemma run_len_eq (r : nat) : run_len s r = if plain_at s r then S (run_before s r) else 0.
Proof. destruct r; reflexivity. Qed.

Lemma run_len_le (x : nat) : run_len s x <= S x.
Proof.
  induction x as [|x IH]; simpl.
  - destruct (plain_at s 0); lia.
  - destruct (plain_at s (S x)); lia.
Qed.

Lemma get_prev_le_run (r : nat) (j2len : dict) (j : nat) :
  (forall j, dget j2len j <= run_len s j) -> get_prev j2len j <= run_before s j.
Proof. intros H; destruct j; simpl; [lia | apply H]. Qed.

Lemma get_prev_le_before (r : nat) (j2len : dict) (j : nat) :
  (forall j, dget j2len j <= run_before s r) -> get_prev j2len j <= run_before s r.
Proof. intros H; destruct j; simpl; [lia | apply H]. Qed.

Lemma scan_row_self (r : nat) (j2len : dict) :
  plain_at s r = true ->
  (forall j, dget j2len j <= run_len s j) ->
  (forall j, dget j2len j <= run_before s r) ->
  get_prev j2len r = run_before s r ->
  forall (js : list nat) (new : dict) (bi bs : nat) (done : bool),
    StronglySorted lt js ->
    (forall j, In j js -> j < length s /\ plain_at s j = true) ->
    (done = false -> In r js) ->
    (done = true -> forall j, In j js -> r < j) ->
    (forall j, dget new j <= run_len s j) ->
    (forall j, dget new j <= run_len s r) ->
    (done = true -> dget new r = run_len s r) ->
    bi + bs <= S r ->
    (forall x, x < r -> run_len s x <= bs) ->
    (done = true -> run_len s r <= bs) ->
    row_inv s (S r) (fst (scan_row r 0 (length s) j2len js new (bi, bi, bs)))
                  (snd (scan_row r 0 (length s) j2len js new (bi, bi, bs))).
Proof.
  intros Hr P1 P2 P3 js; induction js as [|j js IH];
    intros new bi bs done Hs Hjs Hnot Hdone N1 N2 N3 B1 B2 B3.
  - simpl. destruct done; [|destruct (Hnot eq_refl)].
    repeat split; try assumption.
    + simpl; now apply N3.
    + exists bi, bs; repeat split; [assumption|].
      intros x Hx. destruct (Nat.eq_dec x r) as [->|]; [now apply B3 | apply B2; lia].
  - destruct (Hjs j (or_introl eq_refl)) as [Hj Hpj].
    inversion Hs as [|? ? Hs' Hlt]; subst. rewrite Forall_forall in Hlt.
    assert (K1 : get_prev j2len j + 1 <= run_len s j).
    { rewrite (run_len_eq j), Hpj. pose proof (get_prev_le_run r j2len j P1); lia. }
    assert (K2 : get_prev j2len j + 1 <= run_len s r).
    { rewrite (run_len_eq r), Hr. pose proof (get_prev_le_before r j2len j P2); lia. }
    assert (K3 : j = r -> get_prev j2len j + 1 = run_len s r).
    { intros ->. rewrite (run_len_eq r), Hr, P3; lia. }
    cbn [scan_row].
    replace (j <? 0) with false by reflexivity.
    replace (length s <=? j) with false by (symmetry; apply Nat.leb_gt; exact Hj).
    set (k := get_prev j2len j + 1) in *.
    assert (Hn1 : forall x, dget ((j, k) :: new) x <= run_len s x).
    { intros x; simpl. destruct (Nat.eqb_spec j x) as [<-|]; [exact K1 | apply N1]. }
    assert (Hn2 : forall x, dget ((j, k) :: new) x <= run_len s r).
    { intros x; simpl. destruct (Nat.eqb_spec j x); [exact K2 | apply N2]. }
    assert (Hjs' : forall x, In x js -> x < length s /\ plain_at s x = true).
    { intros x Hx; apply Hjs; now right. }
    destruct (lt_eq_lt_dec j r) as [[Hjr | ->] | Hjr].
    + (* before the diagonal *)
      assert (done = false) as ->.
      { destruct done; [|reflexivity].
        specialize (Hdone eq_refl j (or_introl eq_refl)); lia. }
      replace (bs <? k) with false
        by (symmetry; apply Nat.ltb_ge; pose proof (B2 j Hjr); lia).
      apply (IH _ _ _ false); try assumption; try discriminate.
      intros _. destruct (Hnot eq_refl) as [E | H]; [lia | exact H].
    + (* on the diagonal *)
      assert (Hgt : forall x, In x js -> r < x) by (intros x Hx; now apply Hlt).
      assert (Hn3 : dget ((r, k) :: new) r = run_len s r).
      { simpl; rewrite Nat.eqb_refl; now apply K3. }
      destruct (Nat.ltb_spec bs k) as [Hk | Hk].
      * replace (r + 1 - k) with (S r - k) by lia.
        apply (IH _ _ _ true); try assumption; try discriminate; auto.
        -- pose proof (run_len_le r); lia.
        -- intros x Hx; pose proof (B2 x Hx); lia.
        -- intros _; lia.
      * apply (IH _ _ _ true); try assumption; try discriminate; auto.
        intros _; lia.
    + (* after the diagonal *)
      assert (done = true) as ->.
      { destruct done; [reflexivity|].
        destruct (Hnot eq_refl) as [E | H]; [lia|].
        specialize (Hlt r H); lia. }
      replace (bs <? k) with false
        by (symmetry; apply Nat.ltb_ge; pose proof (B3 eq_refl); lia).
      apply (IH _ _ _ true); try assumption; try discriminate; auto.
      * intros _ x Hx; specialize (Hlt x Hx); lia.
      * intros _; simpl.
        destruct (Nat.eqb_spec j r); [lia | now apply N3].
Qed.

Lemma row_inv_start : row_inv s 0 [] (0, 0, 0).
Proof.
  repeat split; simpl; try lia.
  exists 0, 0; repeat split; lia.
Qed.

Lemma scan_rows_self (len : nat) :
  forall (r : nat) (j2len : dict) (best : block),
    row_inv s r j2len best -> r + len <= length s ->
    exists i k, scan_rows s s 0 (length s) (seq r len) j2len best = (i, i, k)
                /\ i + k <= r + len.
Proof.
  induction len as [|len IH]; intros r j2len best Inv Hlen.
  - destruct Inv as [_ [_ [_ [bi [bs [-> [Hb _]]]]]]].
    exists bi, bs; split; [reflexivity | lia].
  - cbn [seq scan_rows].
    destruct Inv as [P1 [P2 [P3 [bi [bs [-> [B1 B2]]]]]]].
    assert (Hr : r < length s) by lia.
    destruct (nth_error s r) as [c|] eqn:Ec;
      [|apply nth_error_None in Ec; lia].
    assert (Next : row_inv s (S r)
              (fst (scan_row r 0 (length s) j2len (b2j s c) [] (bi, bi, bs)))
              (snd (scan_row r 0 (length s) j2len (b2j s c) [] (bi, bi, bs)))).
    { unfold b2j, isbjunk; simpl orb.
      destruct (popular s c) eqn:Ep.
      - assert (Z : run_len s r = 0) by (rewrite run_len_eq; unfold plain_at; now rewrite Ec, Ep).
        simpl; repeat split; simpl; try lia.
        exists bi, bs; repeat split; [lia|].
        intros x Hx; destruct (Nat.eq_dec x r) as [->|]; [lia | apply B2; lia].
      - assert (Hp : plain_at s r = true) by (unfold plain_at; now rewrite Ec, Ep).
        apply (scan_row_self r j2len Hp P1 P2 P3 _ _ _ _ false);
          try discriminate; try (intros; simpl; lia); try assumption.
        + apply indices_from_sorted.
        + intros j Hj; apply indices_from_spec in Hj.
          destruct Hj as [_ [x [Hx E]]]; rewrite Nat.sub_0_r in Hx.
          apply ch_eqb_eq in E; subst x; split.
          * apply nth_error_Some; congruence.
          * unfold plain_at; now rewrite Hx, Ep.
        + intros _; apply indices_from_spec; split; [lia|].
          exists c; rewrite Nat.sub_0_r; split; [exact Ec | now apply ch_eqb_eq]. }
    destruct (scan_row r 0 (length s) j2len (b2j s c) [] (bi, bi, bs))
      as [new best'] eqn:E; simpl in Next.
    destruct (IH (S r) new best' Next ltac:(lia)) as [i [k [H1 H2]]].
    exists i, k; split; [exact H1 | lia].
Qed.

Lemma extend_left_self (i : nat) :
  forall fuel k, i <= fuel -> i + k <= length s ->
    extend_left false s s 0 0 fuel (i, i, k) = (0, 0, i + k).
Proof.
  induction i as [|i IH]; intros fuel k Hf Hk.
  - destruct fuel; reflexivity.
  - destruct fuel as [|fuel]; [lia|].
    cbn [extend_left].
    replace (S i - 1) with i by lia.
    destruct (nth_error s i) as [c|] eqn:Ec;
      [|apply nth_error_None in Ec; lia].
    replace (0 <? S i) with true by reflexivity.
    simpl junk_is; simpl same_elt; unfold isbjunk; simpl eqb.
    replace (ch_eqb c c) with true by (symmetry; now apply ch_eqb_eq).
    simpl andb; cbv iota.
    rewrite IH by lia. f_equal; lia.
Qed.

Lemma extend_right_self (fuel : nat) :
  forall k, k <= length s -> length s - k <= fuel ->
    extend_right false s s (length s) (length s) fuel (0, 0, k) = (0, 0, length s).
Proof.
  induction fuel as [|fuel IH]; intros k Hk Hf.
  - simpl; f_equal; lia.
  - cbn [extend_right]; simpl Nat.add.
    destruct (Nat.ltb_spec k (length s)) as [Hlt | Hge].
    + destruct (nth_error s k) as [c|] eqn:Ec;
        [|apply nth_error_None in Ec; lia].
      simpl junk_is; simpl same_elt; unfold isbjunk; simpl eqb.
      replace (ch_eqb c c) with true by (symmetry; now apply ch_eqb_eq).
      simpl andb; cbv iota.
      apply IH; lia.
    + simpl andb; cbv iota; f_equal; lia.
Qed.

Lemma find_longest_match_self :
  find_longest_match s s 0 (length s) 0 (length s) = (0, 0, length s).
Proof.
  unfold find_longest_match; rewrite Nat.sub_0_r.
  destruct (scan_rows_self (length s) 0 [] (0, 0, 0) row_inv_start ltac:(lia))
    as [i [k [-> Hik]]].
  rewrite extend_left_self by lia.
  rewrite extend_right_self by lia.
  assert (L : forall fuel, extend_left true s s 0 0 fuel (0, 0, length s)
                           = (0, 0, length s)) by (intros [|fuel]; reflexivity).
  rewrite L.
  destruct (length s) as [|n] eqn:E; [reflexivity|].
  cbn [extend_right]; simpl Nat.add.
  now rewrite Nat.ltb_irrefl.
Qed.

End SelfMatch.

Lemma get_matching_blocks_self (s : str) :
  exists blocks, get_matching_blocks s s = Some blocks
                 /\ sum_sizes blocks = length s.
Proof.
  unfold get_matching_blocks; cbn [match_queue].
  rewrite find_longest_match_self.
  destruct (length s) as [|n] eqn:E.
  - eexists; split; reflexivity.
  - cbn [Nat.eqb]. simpl Nat.add.
    replace (0 <? 0) with false by reflexivity.
    rewrite Nat.ltb_irrefl; simpl andb; cbv iota.
    cbn [match_queue app sort_blocks fold_right insert_block collapse].
    simpl. eexists; split; [reflexivity|].
    unfold sum_sizes; simpl; lia.
Qed.

Lemma fdiv_same (p : Z) : (0 < p)%Z -> Float.fdiv p p = Float.Double (2 ^ 52) (-52).
Proof.
  intros Hp.
  assert (E2 : ((p * 2 ^ 52) / p = 2 ^ 52)%Z)
    by (rewrite Z.mul_comm; apply Z.div_mul; lia).
  assert (E3 : Float.div_half_even (p * 2 ^ 52) p = (2 ^ 52)%Z).
  { unfold Float.div_half_even; cbv zeta.
    rewrite E2, (Z.mul_comm p), Z.mod_mul by lia.
    replace (2 * 0 ?= p)%Z with Lt by (symmetry; apply Z.compare_lt_iff; lia).
    reflexivity. }
  unfold Float.fdiv; rewrite Z.sub_diag.
  change (Float.scaled p p (0 - 52)) with ((p * 2 ^ 52)%Z, p).
  cbv beta iota zeta; rewrite E2, Z.ltb_irrefl.
  change (Float.scaled p p (0 - 52)) with ((p * 2 ^ 52)%Z, p).
  cbv beta iota zeta; rewrite E3; reflexivity.
Qed.

Lemma ratio_self (s : str) : ratio s s = Some (Float.Double (2 ^ 52) (-52)).
Proof.
  unfold ratio; destruct (get_matching_blocks_self s) as [blocks [-> ->]].
  unfold calculate_ratio; f_equal.
  destruct (length s) as [|n] eqn:E; [reflexivity|].
  simpl Nat.eqb; cbv iota.
  replace (Z.of_nat (S n + S n)) with (2 * Z.of_nat (S n))%Z by lia.
  apply fdiv_same; lia.
Qed.

(** ** The matcher's loop finishes *)

Lemma scan_row_rows (i alo blo bhi : nat) (j2len : dict) :
  alo <= i ->
  (forall j, dget j2len j <= i - alo) ->
  forall (js : list nat) (new : dict) (best : block),
    (forall j, dget new j <= S i - alo) ->
    in_rows alo (S i) best ->
    (forall j, dget (fst (scan_row i blo bhi j2len js new best)) j <= S i - alo)
    /\ in_rows alo (S i) (snd (scan_row i blo bhi j2len js new best)).
Proof.
  intros Hi P js; induction js as [|j js IH]; intros new best N B; simpl.
  - now split.
  - destruct (j <? blo); [now apply IH|].
    destruct (bhi <=? j); [now split|].
    assert (K : get_prev j2len j + 1 <= S i - alo).
    { destruct j as [|j]; unfold get_prev; [lia | specialize (P j); lia]. }
    destruct best as [[bi bj] bs].
    apply IH.
    + intros x; simpl; destruct (j =? x); auto.
    + destruct (bs <? get_prev j2len j + 1); [|exact B].
      unfold in_rows; simpl; lia.
Qed.

Lemma scan_rows_rows (a b : str) (alo blo bhi : nat) (len : nat) :
  forall (r : nat) (j2len : dict) (best : block),
    alo <= r ->
    (forall j, dget j2len j <= r - alo) ->
    in_rows alo r best ->
    in_rows alo (r + len) (scan_rows a b blo bhi (seq r len) j2len best).
Proof.
  induction len as [|len IH]; intros r j2len best Hr P B; cbn [seq scan_rows].
  - now rewrite Nat.add_0_r.
  - set (js := match nth_error a r with Some c => b2j b c | None => [] end).
    assert (N0 : forall j, dget [] j <= S r - alo) by (intros; simpl; lia).
    assert (B0 : in_rows alo (S r) best) by (destruct B; split; lia).
    destruct (scan_row_rows r alo blo bhi j2len Hr P js [] best N0 B0) as [N1 B1].
    destruct (scan_row r blo bhi j2len js [] best) as [new best'].
    cbn [fst snd] in N1, B1.
    replace (r + S len) with (S r + len) by lia.
    apply IH; [lia | | exact B1].
    intros j; specialize (N1 j); lia.
Qed.

Lemma extend_left_rows (want : bool) (a b : str) (alo blo top fuel : nat) :
  forall best, in_rows alo top best ->
               in_rows alo top (extend_left want a b alo blo fuel best).
Proof.
  induction fuel as [|fuel IH]; intros [[bi bj] bs] B; cbn [extend_left]; [exact B|].
  destruct (Nat.ltb_spec alo bi); simpl andb; [|exact B].
  destruct ((blo <? bj) && junk_is want (nth_error b (bj - 1))
            && same_elt (nth_error a (bi - 1)) (nth_error b (bj - 1))); [|exact B].
  apply IH; unfold in_rows in *; simpl in *; lia.
Qed.

Lemma extend_right_rows (want : bool) (a b : str) (alo ahi bhi fuel : nat) :
  forall best, in_rows alo ahi best ->
               in_rows alo ahi (extend_right want a b ahi bhi fuel best).
Proof.
  induction fuel as [|fuel IH]; intros [[bi bj] bs] B; cbn [extend_right]; [exact B|].
  destruct (Nat.ltb_spec (bi + bs) ahi); simpl andb; [|exact B].
  destruct ((bj + bs <? bhi) && junk_is want (nth_error b (bj + bs))
            && same_elt (nth_error a (bi + bs)) (nth_error b (bj + bs))); [|exact B].
  apply IH; unfold in_rows in *; simpl in *; lia.
Qed.

Lemma find_longest_match_rows (a b : str) (alo ahi blo bhi : nat) :
  alo <= ahi -> in_rows alo ahi (find_longest_match a b alo ahi blo bhi).
Proof.
  intros H; unfold find_longest_match.
  apply extend_right_rows, extend_left_rows, extend_right_rows, extend_left_rows.
  replace ahi with (alo + (ahi - alo)) at 1 by lia.
  apply scan_rows_rows; [lia | intros; simpl; lia | split; simpl; lia].
Qed.

Lemma match_queue_finishes (a b : str) (fuel : nat) :
  forall queue blocks,
    queue_ok queue -> queue_work queue <= fuel ->
    exists r, match_queue a b fuel queue blocks = Some r.
Proof.
  induction fuel as [|fuel IH]; intros queue blocks Hok Hw.
  - destruct queue as [|[[[alo ahi] blo] bhi] queue]; [now eexists|].
    simpl in Hw; lia.
  - destruct queue as [|[[[alo ahi] blo] bhi] queue]; [now eexists|].
    cbn [match_queue].
    inversion Hok as [|? ? Hq Hrest]; subst.
    pose proof (find_longest_match_rows a b alo ahi blo bhi Hq) as B.
    destruct (find_longest_match a b alo ahi blo bhi) as [[i j] k].
    unfold in_rows in B; simpl in B, Hw.
    destruct (Nat.eqb_spec k 0) as [->|Hk].
    + apply IH; [exact Hrest | lia].
    + apply IH.
      * destruct ((i + k <? ahi) && (j + k <? bhi));
          destruct ((alo <? i) && (blo <? j));
          repeat (constructor; [lia|]); exact Hrest.
      * destruct ((i + k <? ahi) && (j + k <? bhi));
          destruct ((alo <? i) && (blo <? j)); simpl; lia.
Qed.

Lemma get_matching_blocks_finishes (a b : str) :
  exists blocks, get_matching_blocks a b = Some blocks.
Proof.
  unfold get_matching_blocks.
  destruct (match_queue_finishes a b (S (2 * length a))
              [(0, length a, 0, length b)] []) as [r ->].
  - repeat constructor; lia.
  - simpl; lia.
  - now eexists.
Qed.

Lemma score_similarity_finishes (left right : str) :
  exists x, score_similarity left right = Some x.
Proof.
  unfold score_similarity, ratio.
  destruct (get_matching_blocks_finishes (normalize_subject (Some left))
              (normalize_subject (Some right))) as [blocks ->].
  now eexists.
Qed.

(** C8, as stated, fails: the score of "tide" against "diet" is 0.25, that
    of "diet" against "tide" is 0.5. *)
Lemma score_similarity_not_symmetric :
  score_similarity (L "tide") (L "diet") = Some (Float.fdiv 1 4)
  /\ score_similarity (L "diet") (L "tide") = Some (Float.fdiv 1 2)
  /\ score_similarity (L "tide") (L "diet") <> score_similarity (L "diet") (L "tide").
Proof.
  vm_compute; repeat split; discriminate.
Qed.


(** C8, amended.  The similarity of two strings with the same normalised
    form is 1.0 in either order, so the score is symmetric on such pairs;
    for other pairs it can depend on the order of the arguments. *)
Theorem score_similarity_same (a b : str) :
  normalize_subject (Some a) = normalize_subject (Some b) ->
  score_similarity a b = Some (Float.fdiv 1 1)
  /\ score_similarity b a = Some (Float.fdiv 1 1).
Proof.
  intros E; unfold score_similarity; rewrite E, ratio_self; split; reflexivity.
Qed.

Lemma score_similarity_same_witness :
  score_similarity (L "hvdc") (L " HVDC ") = Some (Float.fdiv 1 1)
  /\ score_similarity (L " HVDC ") (L "hvdc") = Some (Float.fdiv 1 1).
Proof.
  apply (score_similarity_same (L "hvdc") (L " HVDC ")).
  vm_compute; reflexivity.
Defined.

(** * The parenthesised short codes *)

(** C2 at its input: [find_case_codes] returns no code, while the extractor
    of the earlier mapper, [extract_case_numbers], expands both sub-tokens of
    the group. *)
Theorem paren_group_not_expanded :
  find_case_codes (Some (L "(HE-0427, HE-0428)")) = Ok []
  /\ extract_case_numbers (Some (L "(HE-0427, HE-0428)"))
     = Ok [L "HVDC-ADOPT-HE-0427"; L "HVDC-ADOPT-HE-0428"].
Proof. split; vm_compute; reflexivity. Qed.

(** * The matcher: groups that are bound, and what they hold *)

Lemma eats_top (ic : bool) (r : regex) : within ic (fun _ => true) r = true.
Proof.
  induction r as [| a | | negate items | r1 IH1 r2 IH2 | greedy lo hi r1 IH1 | n r1 IH1];
    cbn [within]; try reflexivity; try assumption.
  - apply forallb_forall; intros; apply implb_true_r.
  - apply forallb_forall; intros; apply implb_true_r.
  - now rewrite IH1, IH2.
Qed.

(** Every outcome of a search leaves a suffix of the text. *)
Lemma run_suffix (ic : bool) (r : regex) (s : str) (c : caps) (o : outcome) :
  In o (run ic r s c) -> exists pre, s = pre ++ fst o.
Proof.
  intros H; destruct (run_eats ic (fun _ => true) r (eats_top ic r) s c o H)
    as [pre [E _]]; now exists pre.
Qed.

Lemma consumed_split (s : str) (o : outcome) :
  (exists pre, s = pre ++ fst o) -> s = consumed s (fst o) ++ fst o.
Proof. intros [pre E]; rewrite E at 2; rewrite consumed_app; exact E. Qed.

Section Captures.

Variable ic : bool.
Variable R : nat -> str -> Prop.

Lemma rep_run_sound (body : str -> caps -> list outcome) :
  (forall s c o, caps_all R c -> In o (body s c) -> caps_all R (snd o)) ->
  forall greedy fuel lo hi s c o,
    caps_all R c -> In o (rep_run body greedy fuel lo hi s c) -> caps_all R (snd o).
Proof.
  intros Hb greedy fuel; induction fuel as [|fuel IH]; intros lo hi s c o Hc; simpl.
  - destruct (lo =? 0); simpl; [intros [<- | []]; exact Hc | intros []].
  - set (stop := if lo =? 0 then [(s, c)] else []).
    assert (Hstop : In o stop -> caps_all R (snd o)).
    { unfold stop; destruct (lo =? 0); simpl;
        [intros [<- | []]; exact Hc | intros []]. }
    set (more := match hi with Some 0 => [] | _ => _ end).
    assert (Hmore : In o more -> caps_all R (snd o)).
    { unfold more; clear more.
      assert (G : In o (flat_map
                (fun o0 : outcome =>
                   if length (fst o0) <? length s
                   then rep_run body greedy fuel (pred lo) (option_map pred hi)
                          (fst o0) (snd o0)
                   else []) (body s c)) -> caps_all R (snd o)).
      { rewrite in_flat_map; intros [o1 [H1 H2]].
        destruct (length (fst o1) <? length s); [|destruct H2].
        eapply IH; [|exact H2]. eapply Hb; eassumption. }
      destruct hi as [[|h]|]; [intros [] | exact G | exact G]. }
    destruct greedy; rewrite in_app_iff; tauto.
Qed.

Lemma run_sound (r : regex) :
  groups_sound ic R r ->
  forall s c o, caps_all R c -> In o (run ic r s c) -> caps_all R (snd o).
Proof.
  induction r as [| a | | negate items | r1 IH1 r2 IH2 | greedy lo hi r1 IH1 | n r1 IH1];
    intros W s c o Hc; simpl.
  - intros [<- | []]; exact Hc.
  - destruct s as [|ch t]; [intros []|].
    destruct (lit_match ic a ch); [|intros []]; intros [<- | []]; exact Hc.
  - destruct s as [|ch t]; [intros []|].
    destruct (code ch =? 10); [intros []|]; intros [<- | []]; exact Hc.
  - destruct s as [|ch t]; [intros []|].
    destruct (xorb negate (set_mem ic items ch)); [|intros []];
      intros [<- | []]; exact Hc.
  - destruct W as [W1 W2].
    rewrite in_flat_map; intros [o1 [H1 H2]].
    eapply IH2; [exact W2 | | exact H2]. eapply IH1; eassumption.
  - apply rep_run_sound; [|exact Hc]. intros s0 c0 o0; apply IH1, W.
  - destruct W as [W1 W2].
    rewrite in_map_iff; intros [o1 [<- H1]]; simpl.
    constructor; [|eapply IH1; eassumption].
    simpl; now apply (W1 s c).
Qed.

End Captures.

Lemma cap_get_sound (R : nat -> str -> Prop) (n : nat) (c : caps) (v : str) :
  caps_all R c -> cap_get n c = Some v -> R n v.
Proof.
  induction 1 as [|[k w] c Hk Hc IH]; simpl; [discriminate|].
  destruct (Nat.eqb_spec k n) as [->|]; [intros [= <-]; exact Hk | exact IH].
Qed.

Lemma rep_run_outcome (body : str -> caps -> list outcome) (greedy : bool)
    (fuel lo : nat) (hi : option nat) (s : str) (c : caps) (o : outcome) :
  In o (rep_run body greedy fuel lo hi s c) ->
  (lo = 0 /\ o = (s, c))
  \/ exists fuel' o1, In o1 (body s c)
                      /\ In o (rep_run body greedy fuel' (pred lo) (option_map pred hi)
                                 (fst o1) (snd o1)).
Proof.
  destruct fuel as [|fuel]; simpl.
  - destruct (Nat.eqb_spec lo 0); simpl; [intros [<- | []]; now left | intros []].
  - set (stop := if lo =? 0 then [(s, c)] else []).
    assert (Hstop : In o stop -> lo = 0 /\ o = (s, c)).
    { unfold stop; destruct (Nat.eqb_spec lo 0); simpl;
        [intros [<- | []]; now split | intros []]. }
    set (more := match hi with Some 0 => [] | _ => _ end).
    assert (Hmore : In o more ->
              exists fuel' o1, In o1 (body s c)
                /\ In o (rep_run body greedy fuel' (pred lo) (option_map pred hi)
                           (fst o1) (snd o1))).
    { unfold more; clear more.
      assert (G : In o (flat_map
                (fun o0 : outcome =>
                   if length (fst o0) <? length s
                   then rep_run body greedy fuel (pred lo) (option_map pred hi)
                          (fst o0) (snd o0)
                   else []) (body s c)) ->
              exists fuel' o1, In o1 (body s c)
                /\ In o (rep_run body greedy fuel' (pred lo) (option_map pred hi)
                           (fst o1) (snd o1))).
      { rewrite in_flat_map; intros [o1 [H1 H2]].
        destruct (length (fst o1) <? length s); [|destruct H2].
        now exists fuel, o1. }
      destruct hi as [[|h]|]; [intros [] | exact G | exact G]. }
    destruct greedy; rewrite in_app_iff; tauto.
Qed.

Section Bound.

Variable ic : bool.
Variable n : nat.

Lemma rep_run_keeps (body : str -> caps -> list outcome) :
  (forall s c o, bound n c -> In o (body s c) -> bound n (snd o)) ->
  forall greedy fuel lo hi s c o,
    bound n c -> In o (rep_run body greedy fuel lo hi s c) -> bound n (snd o).
Proof.
  intros Hb greedy fuel; induction fuel as [|fuel IH]; intros lo hi s c o Hc; simpl.
  - destruct (lo =? 0); simpl; [intros [<- | []]; exact Hc | intros []].
  - set (stop := if lo =? 0 then [(s, c)] else []).
    assert (Hstop : In o stop -> bound n (snd o)).
    { unfold stop; destruct (lo =? 0); simpl;
        [intros [<- | []]; exact Hc | intros []]. }
    set (more := match hi with Some 0 => [] | _ => _ end).
    assert (Hmore : In o more -> bound n (snd o)).
    { unfold more; clear more.
      assert (G : In o (flat_map
                (fun o0 : outcome =>
                   if length (fst o0) <? length s
                   then rep_run body greedy fuel (pred lo) (option_map pred hi)
                          (fst o0) (snd o0)
                   else []) (body s c)) -> bound n (snd o)).
      { rewrite in_flat_map; intros [o1 [H1 H2]].
        destruct (length (fst o1) <? length s); [|destruct H2].
        eapply IH; [|exact H2]. eapply Hb; eassumption. }
      destruct hi as [[|h]|]; [intros [] | exact G | exact G]. }
    destruct greedy; rewrite in_app_iff; tauto.
Qed.

Lemma run_keeps (r : regex) :
  forall s c o, bound n c -> In o (run ic r s c) -> bound n (snd o).
Proof.
  induction r as [| a | | negate items | r1 IH1 r2 IH2 | greedy lo hi r1 IH1 | k r1 IH1];
    intros s c o Hc; simpl.
  - intros [<- | []]; exact Hc.
  - destruct s as [|ch t]; [intros []|].
    destruct (lit_match ic a ch); [|intros []]; intros [<- | []]; exact Hc.
  - destruct s as [|ch t]; [intros []|].
    destruct (code ch =? 10); [intros []|]; intros [<- | []]; exact Hc.
  - destruct s as [|ch t]; [intros []|].
    destruct (xorb negate (set_mem ic items ch)); [|intros []];
      intros [<- | []]; exact Hc.
  - rewrite in_flat_map; intros [o1 [H1 H2]].
    eapply IH2; [|exact H2]. eapply IH1; eassumption.
  - apply rep_run_keeps; [|exact Hc]. intros s0 c0 o0; apply IH1.
  - rewrite in_map_iff; intros [o1 [<- H1]]; simpl.
    destruct (IH1 _ _ _ Hc H1) as [v Hv].
    unfold bound; simpl; destruct (k =? n); eauto.
Qed.

Lemma run_binds (r : regex) :
  binds n r = true ->
  forall s c o, In o (run ic r s c) -> bound n (snd o).
Proof.
  induction r as [| a | | negate items | r1 IH1 r2 IH2 | greedy lo hi r1 IH1 | k r1 IH1];
    cbn [binds run]; try discriminate; intros B s c o.
  - rewrite in_flat_map; intros [o1 [H1 H2]].
    apply orb_true_iff in B; destruct B as [B | B].
    + eapply run_keeps; [|exact H2]. eapply IH1; eassumption.
    + eapply IH2; eassumption.
  - apply andb_true_iff in B; destruct B as [Hlo B].
    apply Nat.leb_le in Hlo.
    intros H; apply rep_run_outcome in H.
    destruct H as [[H0 _] | [fuel' [o1 [H1 H2]]]]; [lia|].
    eapply rep_run_keeps; [| |exact H2].
    + intros s0 c0 o0; apply run_keeps.
    + eapply IH1; eassumption.
  - rewrite in_map_iff; intros [o1 [<- H1]]; simpl.
    apply orb_true_iff in B; destruct B as [B | B].
    + unfold bound; simpl; rewrite B; eauto.
    + destruct (IH1 B _ _ _ H1) as [v Hv].
      unfold bound; simpl; destruct (k =? n); eauto.
Qed.

End Bound.

(** The text of a bound group with a sound body, in every match. *)
Lemma finditer_group_sound (R : nat -> str -> Prop) (p : pattern) (s : str)
    (m : match_obj) (n : nat) :
  groups_sound (ignorecase p) R (rx p) ->
  binds (S n) (rx p) = true ->
  In m (finditer p s) -> R (S n) (group (S n) m).
Proof.
  intros W B H; apply scan_In in H; destruct H as [s0 [o [H ->]]]; simpl.
  destruct (run_binds (ignorecase p) (S n) (rx p) B _ _ _ H) as [v Hv].
  rewrite Hv; eapply cap_get_sound; [|exact Hv].
  eapply run_sound; [exact W | constructor | exact H].
Qed.

(** ** What a match must hold *)

Lemma lit_match_plain (ic : bool) (a x : ascii) :
  is_alpha a = false -> lit_match ic a x = true -> x = a.
Proof.
  intros Ha; unfold lit_match; destruct ic; [|apply ch_eqb_eq].
  intros H; apply ch_eqb_eq in H.
  assert (La : to_lower a = a).
  { unfold to_lower; unfold is_alpha in Ha; apply orb_false_iff in Ha.
    now destruct Ha as [-> _]. }
  rewrite La in H; unfold to_lower in H.
  destruct (is_upper x) eqn:Ux; [|exact H].
  exfalso; subst a.
  pose proof (forall_ascii
    (fun x => implb (is_upper x) (is_alpha (ascii_of_nat (code x + 32)))) eq_refl x) as F.
  cbv beta in F; rewrite Ux, Ha in F; discriminate F.
Qed.

Lemma consumed_trans (s s1 s2 : str) :
  (exists pre, s = pre ++ s1) -> (exists pre, s1 = pre ++ s2) ->
  consumed s s2 = consumed s s1 ++ consumed s1 s2.
Proof.
  intros [p1 ->] [p2 ->].
  rewrite (consumed_app p1 (p2 ++ s2)), (consumed_app p2 s2).
  now rewrite app_assoc, consumed_app.
Qed.

Lemma rep_run_suffix (ic : bool) (r : regex) (greedy : bool) (fuel lo : nat)
    (hi : option nat) (s : str) (c : caps) (o : outcome) :
  In o (rep_run (run ic r) greedy fuel lo hi s c) -> exists pre, s = pre ++ fst o.
Proof.
  intros H.
  destruct (rep_run_eats (fun _ => true) (run ic r)
              (fun s c o => run_eats ic (fun _ => true) r (eats_top ic r) s c o)
              greedy fuel lo hi s c o H) as [pre [E _]].
  now exists pre.
Qed.

Lemma run_must_have (ic : bool) (ch : ascii) (r : regex) :
  must_have ch r = true ->
  forall s c o, In o (run ic r s c) -> In ch (consumed s (fst o)).
Proof.
  induction r as [| a | | negate items | r1 IH1 r2 IH2 | greedy lo hi r1 IH1 | k r1 IH1];
    cbn [must_have run]; try discriminate; intros M s c o.
  - apply andb_true_iff in M; destruct M as [E A].
    apply ch_eqb_eq in E; subst a; apply negb_true_iff in A.
    destruct s as [|x t]; [intros []|].
    destruct (lit_match ic ch x) eqn:L; [|intros []].
    intros [<- | []]; simpl.
    rewrite (lit_match_plain ic ch x A L).
    change (ch :: t) with ([ch] ++ t); rewrite consumed_app; now left.
  - rewrite in_flat_map; intros [o1 [H1 H2]].
    rewrite (consumed_trans s (fst o1) (fst o) (run_suffix _ _ _ _ _ H1) (run_suffix _ _ _ _ _ H2)).
    apply in_or_app; apply orb_true_iff in M; destruct M as [M | M].
    + left; eapply IH1; eassumption.
    + right; eapply IH2; eassumption.
  - apply andb_true_iff in M; destruct M as [Hlo M]; apply Nat.leb_le in Hlo.
    intros H; apply rep_run_outcome in H.
    destruct H as [[H0 _] | [fuel' [o1 [H1 H2]]]]; [lia|].
    rewrite (consumed_trans s (fst o1) (fst o) (run_suffix _ _ _ _ _ H1) (rep_run_suffix _ _ _ _ _ _ _ _ _ H2)).
    apply in_or_app; left; eapply IH1; eassumption.
  - rewrite in_map_iff; intros [o1 [<- H1]]; simpl; eapply IH1; eassumption.
Qed.

Lemma finditer_must_have (ch : ascii) (p : pattern) (s : str) (m : match_obj) :
  must_have ch (rx p) = true -> In m (finditer p s) -> In ch (m_text m).
Proof.
  intros M H; apply scan_In in H; destruct H as [s0 [o [H ->]]]; simpl.
  eapply run_must_have; eassumption.
Qed.

(** * The summary of the mapper *)

(** ** [normalize_subject] *)





Lemma to_lower_not_upper (c : ascii) : is_upper (to_lower c) = false.
Proof.
  apply negb_true_iff; revert c.
  apply (forall_ascii (fun c => negb (is_upper (to_lower c)))).
  vm_compute; reflexivity.
Qed.



Section StripMap.

Variable f : ascii -> ascii.
Hypothesis f_space : forall c, is_space (f c) = is_space c.




End StripMap.
















(** ** The segments of a code *)

Lemma groups_have_sound (ic : bool) (ch : ascii) (r : regex) :
  groups_have ch r = true -> groups_sound ic (fun _ v => In ch v) r.
Proof.
  induction r as [| a | | negate items | r1 IH1 r2 IH2 | greedy lo hi r1 IH1 | n r1 IH1];
    cbn [groups_have groups_sound]; intros H; try exact I.
  - apply andb_true_iff in H; destruct H; split; auto.
  - auto.
  - apply andb_true_iff in H; destruct H as [M G]; split; [|auto].
    intros s c o; now apply run_must_have.
Qed.

Lemma in_upper_plain (ch : ascii) (s : str) :
  is_lower ch = false -> In ch s -> In ch (upper s).
Proof.
  intros Hc H; unfold upper.
  replace ch with (to_upper ch) by (unfold to_upper; now rewrite Hc).
  now apply in_map.
Qed.

Lemma extracted_hyphen (work e : str) : In e (extracted work) -> In "-"%char e.
Proof.
  unfold extracted, findall; rewrite !in_app_iff, !map_map, !in_map_iff.
  intros [[m [<- H]] | [[m [<- H]] | [[m [<- H]] | [m [<- H]]]]].
  - apply in_upper_plain; [reflexivity|].
    change (groups (rx (rule (L "HVDC_ADOPT")))) with 0.
    apply (finditer_must_have "-" (rule (L "HVDC_ADOPT")) work m); [reflexivity | exact H].
  - apply in_upper_plain; [reflexivity|].
    change (groups (rx (rule (L "HVDC_GENERIC")))) with 0.
    apply (finditer_must_have "-" (rule (L "HVDC_GENERIC")) work m); [reflexivity | exact H].
  - unfold jptw_grm_code; apply in_or_app; left.
    right; right; right; right; now left.
  - apply in_upper_plain; [reflexivity|].
    change (groups (rx (rule (L "TRAILING")))) with 1.
    apply (finditer_group_sound (fun _ v => In "-"%char v) (rule (L "TRAILING")) work m 0);
      [apply groups_have_sound; vm_compute; reflexivity
      | vm_compute; reflexivity | exact H].
Qed.

Lemma split_on_length (sep : ascii) (s : str) :
  length (split_on sep s) = S (length (filter (fun c => ch_eqb c sep) s)).
Proof.
  induction s as [|c s IH]; simpl; [reflexivity|].
  destruct (ch_eqb c sep); simpl; [now rewrite IH|].
  destruct (split_on sep s); simpl in *; [discriminate | exact IH].
Qed.

Lemma split_on_first (sep : ascii) (s : str) : exists a rest, split_on sep s = a :: rest.
Proof.
  pose proof (split_on_length sep s) as H.
  destruct (split_on sep s) as [|a rest]; [discriminate | now exists a, rest].
Qed.

Lemma split_on_second (sep : ascii) (s : str) :
  In sep s -> exists a b rest, split_on sep s = a :: b :: rest.
Proof.
  intros H; pose proof (split_on_length sep s) as E.
  assert (F : In sep (filter (fun c => ch_eqb c sep) s))
    by (apply filter_In; split; [exact H | now apply ch_eqb_eq]).
  destruct (filter (fun c => ch_eqb c sep) s) as [|x f]; [destruct F|].
  destruct (split_on sep s) as [|a [|b rest]]; try discriminate.
  now exists a, b, rest.
Qed.

(** ** [build_summary] *)

Lemma counter_incr_sum (c : counter) (key : str) :
  count_sum (counter_incr c key) = S (count_sum c).
Proof.
  induction c as [|[k n] c IH]; simpl; [reflexivity|].
  destruct (str_eqb k key); simpl; [reflexivity | rewrite IH; lia].
Qed.

Lemma str_eqb_sym (a b : str) : str_eqb a b = str_eqb b a.
Proof.
  destruct (str_eqb a b) eqn:E, (str_eqb b a) eqn:F; try reflexivity.
  - apply str_eqb_eq in E; subst; rewrite str_eqb_refl in F; discriminate.
  - apply str_eqb_eq in F; subst; rewrite str_eqb_refl in E; discriminate.
Qed.

Lemma counter_incr_count (c : counter) (key k : str) :
  count_of (counter_incr c key) k
  = count_of c k + (if str_eqb key k then 1 else 0).
Proof.
  induction c as [|[k0 n] c IH]; simpl.
  - destruct (str_eqb key k); reflexivity.
  - destruct (str_eqb k0 key) eqn:E; simpl.
    + apply str_eqb_eq in E; subst k0.
      destruct (str_eqb key k); lia.
    + destruct (str_eqb k0 k) eqn:E2; [|exact IH].
      apply str_eqb_eq in E2; subst k0; rewrite (str_eqb_sym key k), E; lia.
Qed.

Lemma counter_incr_keys (c : counter) (key k : str) :
  In k (map fst (counter_incr c key)) <-> In k (map fst c) \/ k = key.
Proof.
  induction c as [|[k0 n] c IH]; simpl; [intuition|].
  destruct (str_eqb k0 key) eqn:E; simpl.
  - apply str_eqb_eq in E; subst k0; intuition.
  - rewrite IH; intuition.
Qed.

Lemma counter_incr_NoDup (c : counter) (key : str) :
  NoDup (map fst c) -> NoDup (map fst (counter_incr c key)).
Proof.
  induction c as [|[k0 n] c IH]; simpl; intros H.
  - constructor; [intros [] | constructor].
  - inversion H as [|? ? Hk Hc]; subst.
    destruct (str_eqb k0 key) eqn:E; simpl; [now constructor|].
    constructor; [|now apply IH].
    rewrite counter_incr_keys; intros [H1 | ->]; [contradiction|].
    rewrite str_eqb_refl in E; discriminate.
Qed.

Lemma counter_incr_positive (c : counter) (key : str) :
  Forall (fun kv => 1 <= snd kv) c -> Forall (fun kv => 1 <= snd kv) (counter_incr c key).
Proof.
  induction 1 as [|[k n] c Hk Hc IH]; simpl.
  - repeat constructor.
  - destruct (str_eqb k key); constructor; simpl in *; auto; lia.
Qed.

Lemma count_of_In (c : counter) (k : str) (n : nat) :
  NoDup (map fst c) -> In (k, n) c -> count_of c k = n.
Proof.
  induction c as [|[k0 n0] c IH]; simpl; [intros _ []|].
  intros H; inversion H as [|? ? Hk Hc]; subst.
  intros [[= -> ->] | Hin]; [now rewrite str_eqb_refl|].
  destruct (str_eqb k0 k) eqn:E; [|now apply IH].
  apply str_eqb_eq in E; subst k0; exfalso; apply Hk.
  apply in_map_iff; now exists (k, n).
Qed.

Lemma insert_by_count_perm (x : str * nat) (l : list (str * nat)) :
  Permutation (insert_by_count x l) (x :: l).
Proof.
  induction l as [|y l IH]; simpl; [reflexivity|].
  destruct (snd x <? snd y); [|reflexivity].
  rewrite IH; apply perm_swap.
Qed.

Lemma most_common_perm (c : counter) : Permutation (most_common c) c.
Proof.
  induction c as [|x c IH]; simpl; [reflexivity|].
  rewrite insert_by_count_perm; now constructor.
Qed.

Lemma count_sum_perm (c d : list (str * nat)) :
  Permutation c d -> count_sum c = count_sum d.
Proof.
  induction 1; simpl; lia.
Qed.

Lemma code_vendor_ok (code : str) :
  In "-"%char code -> exists v, code_vendor code = Val (Some v).
Proof.
  intros H; destruct (split_on_second _ _ H) as [a [b [rest E]]].
  unfold code_vendor; rewrite E; simpl.
  eexists; reflexivity.
Qed.

Lemma recipient_site_ok (recipient : str) : exists v, recipient_site recipient = Val v.
Proof.
  destruct (split_on_first "@" recipient) as [a [rest E]].
  unfold recipient_site; rewrite E; simpl.
  eexists; reflexivity.
Qed.

Lemma count_codes_ok (codes : list str) :
  Forall (fun e => In "-"%char e) codes -> NoDup codes ->
  forall t, exists t',
    for_each count_code codes t = Val t'
    /\ total t' = total t
    /\ site_counter t' = site_counter t
    /\ count_sum (case_counter t') = count_sum (case_counter t) + length codes
    /\ count_sum (vendor_counter t') = count_sum (vendor_counter t) + length codes
    /\ (NoDup (map fst (case_counter t)) -> NoDup (map fst (case_counter t')))
    /\ (Forall (fun kv => 1 <= snd kv) (case_counter t) ->
        Forall (fun kv => 1 <= snd kv) (case_counter t'))
    /\ forall k, count_of (case_counter t') k = count_of (case_counter t) k + hit k codes.
Proof.
  intros F N; induction codes as [|code codes IH]; intros t.
  - exists t; simpl; repeat split; auto; intros; unfold hit; simpl; lia.
  - inversion F as [|? ? Fc Fr]; inversion N as [|? ? Nc Nr]; subst.
    destruct (code_vendor_ok code Fc) as [v Ev].
    simpl; unfold count_code at 1; rewrite Ev; simpl.
    match goal with |- context [for_each count_code codes ?t1] =>
      destruct (IH Fr Nr t1) as [t' [E [T [S [C [V [D [P K]]]]]]]] end.
    simpl in *.
    exists t'; rewrite E; repeat split; auto.
    + rewrite C, counter_incr_sum; lia.
    + rewrite V, counter_incr_sum; lia.
    + intros H; apply D, counter_incr_NoDup, H.
    + intros H; apply P, counter_incr_positive, H.
    + intros k; rewrite K, counter_incr_count; unfold hit; simpl.
      destruct (str_eqb k code) eqn:E1.
      * apply str_eqb_eq in E1; subst k; rewrite str_eqb_refl.
        replace (set_in code codes) with false;
          [simpl; lia | symmetry; apply not_true_is_false; now rewrite set_in_In].
      * replace (str_eqb code k) with false;
          [simpl; destruct (set_in k codes); lia|].
        symmetry; apply not_true_is_false; intros H1.
        apply str_eqb_eq in H1; subst k; rewrite str_eqb_refl in E1; discriminate.
Qed.

Lemma count_recipients_ok (rs : list str) :
  forall t, exists t',
    for_each count_recipient rs t = Val t'
    /\ total t' = total t
    /\ vendor_counter t' = vendor_counter t
    /\ case_counter t' = case_counter t
    /\ count_sum (site_counter t') = count_sum (site_counter t) + length rs.
Proof.
  induction rs as [|r rs IH]; intros t.
  - exists t; simpl; repeat split; lia.
  - destruct (recipient_site_ok r) as [v Ev].
    simpl; unfold count_recipient at 1; rewrite Ev; simpl.
    match goal with |- context [for_each count_recipient rs ?t1] =>
      destruct (IH t1) as [t' [E [T [V [C S]]]]] end.
    simpl in *; exists t'; rewrite E; repeat split; auto.
    rewrite S, counter_incr_sum; lia.
Qed.

Lemma count_items_ok (items : list EmailMetadata) :
  forall t, exists t',
    for_each count_item items t = Val t'
    /\ total t' = total t + length items
    /\ count_sum (case_counter t') = count_sum (case_counter t) + codes_total items
    /\ count_sum (vendor_counter t') = count_sum (vendor_counter t) + codes_total items
    /\ count_sum (site_counter t') = count_sum (site_counter t) + recipients_total items
    /\ (NoDup (map fst (case_counter t)) -> NoDup (map fst (case_counter t')))
    /\ (Forall (fun kv => 1 <= snd kv) (case_counter t) ->
        Forall (fun kv => 1 <= snd kv) (case_counter t'))
    /\ forall k, count_of (case_counter t') k <= count_of (case_counter t) k + length items.
Proof.
  induction items as [|item items IH]; intros t.
  - exists t; simpl; repeat split; auto; intros; lia.
  - destruct (find_case_codes_ok (Some (summary_text item))) as [codes Ec].
    assert (Hh : Forall (fun e => In "-"%char e) codes).
    { rewrite Forall_forall; intros e He.
      apply (result_members _ _ Ec) in He; exact (extracted_hyphen _ _ He). }
    pose proof (result_NoDup _ _ Ec) as Hn.
    cbn [for_each]; unfold count_item at 1; rewrite Ec; cbn [lift bind_res].
    match goal with |- context [for_each count_code codes ?t0] =>
      destruct (count_codes_ok codes Hh Hn t0) as [t1 [E1 [T1 [S1 [C1 [V1 [D1 [P1 K1]]]]]]]] end.
    rewrite E1; cbn [bind_res].
    destruct (count_recipients_ok (recipients item) t1) as [t2 [E2 [T2 [V2 [C2 S2]]]]].
    rewrite E2; cbn [bind_res].
    destruct (IH t2) as [t' [E [T [C [V [S [D [P K]]]]]]]].
    exists t'; rewrite E.
    assert (Ei : item_codes item = codes) by (unfold item_codes; now rewrite Ec).
    simpl in *; rewrite Ei, C2 in *.
    repeat split.
    + lia.
    + lia.
    + rewrite V, V2; lia.
    + rewrite S, S2, S1; lia.
    + auto.
    + auto.
    + intros k; specialize (K k); specialize (K1 k).
      unfold hit in K1; destruct (set_in k codes); lia.
Qed.

Lemma build_summary_spec (items : list EmailMetadata) :
  exists s,
    build_summary items = Val s
    /\ total_emails s = length items
    /\ count_sum (cases s) = codes_total items
    /\ count_sum (vendors s) = codes_total items
    /\ count_sum (sites s) = recipients_total items
    /\ NoDup (map fst (cases s))
    /\ Forall (fun kv => 1 <= snd kv <= length items) (cases s).
Proof.
  unfold build_summary.
  destruct (count_items_ok items
              {| vendor_counter := []; site_counter := []; case_counter := []; total := 0 |})
    as [t [E [T [C [V [S [D [P K]]]]]]]].
  rewrite E; cbn [bind_res]; eexists; split; [reflexivity|]; simpl in *.
  pose proof (D (NoDup_nil _)) as Dk.
  repeat split.
  - exact T.
  - rewrite (count_sum_perm _ _ (most_common_perm _)); exact C.
  - rewrite (count_sum_perm _ _ (most_common_perm _)); exact V.
  - rewrite (count_sum_perm _ _ (most_common_perm _)); exact S.
  - eapply Permutation_NoDup; [|exact Dk].
    apply Permutation_map, Permutation_sym, most_common_perm.
  - eapply Permutation_Forall; [apply Permutation_sym, most_common_perm|].
    specialize (P (Forall_nil _)); rewrite Forall_forall in *.
    intros [k n] Hin; split; [exact (P _ Hin)|]; simpl.
    rewrite <- (count_of_In _ _ _ Dk Hin); apply K.
Qed.

(** X3.  [build_summary] never raises (the subscript
    [vendor_parts[1]] exists for every code, since every code has a hyphen),
    and counts every email. *)
Theorem build_summary_never_raises (items : list EmailMetadata) :
  exists s, build_summary items = Val s /\ total_emails s = length items.
Proof.
  destruct (build_summary_spec items) as [s [E [T _]]]; now exists s.
Qed.

(** X4.  The tallies of [build_summary] add up: the case counts and the vendor
    counts both sum to the number of codes found, the site counts to the
    number of recipients. *)
Theorem build_summary_tallies (items : list EmailMetadata) :
  exists s, build_summary items = Val s
            /\ count_sum (cases s) = codes_total items
            /\ count_sum (vendors s) = codes_total items
            /\ count_sum (sites s) = recipients_total items.
Proof.
  destruct (build_summary_spec items) as [s [E [_ [C [V [S _]]]]]]; now exists s.
Qed.

(** X5.  Each case is listed once by [build_summary], with a count between 1 and
    the number of emails: an email counts a code once however often it is
    mentioned. *)
Theorem build_summary_case_counts (items : list EmailMetadata) :
  exists s, build_summary items = Val s
            /\ NoDup (map fst (cases s))
            /\ Forall (fun kv => 1 <= snd kv <= total_emails s) (cases s).
Proof.
  destruct (build_summary_spec items) as [s [E [T [_ [_ [_ [D F]]]]]]].
  exists s; rewrite T; auto.
Qed.

Lemma split_on_app (sep : ascii) (a b : str) :
  ~ In sep a -> split_on sep (a ++ sep :: b) = a :: split_on sep b.
Proof.
  induction a as [|c a IH]; simpl; intros H.
  - now replace (ch_eqb sep sep) with true by (symmetry; now apply ch_eqb_eq).
  - replace (ch_eqb c sep) with false.
    + rewrite IH; [reflexivity | tauto].
    + symmetry; apply not_true_is_false; intros E; apply ch_eqb_eq in E; tauto.
Qed.

(** X6.  The vendor [build_summary] counts for a code is the alias of its second
    hyphen-separated segment: for a code HVDC-<seg>-... that of <seg>, and so
    "Adopt" for every HVDC-ADOPT code. *)
Theorem code_vendor_second_segment (seg rest : str) :
  ~ In "-"%char seg ->
  code_vendor (L "HVDC-" ++ seg ++ L "-" ++ rest)
  = lift (v <- match_vendor_alias (Some seg) ;; Ok (Some v))
  /\ code_vendor (L "HVDC-ADOPT-" ++ rest) = Val (Some (L "Adopt")).
Proof.
  intros H; split.
  - unfold code_vendor.
    change (L "HVDC-" ++ seg ++ L "-" ++ rest)
      with (L "HVDC" ++ "-"%char :: (seg ++ "-"%char :: rest)).
    rewrite split_on_app, (split_on_app _ seg) by (try exact H; vm_compute; intuition discriminate).
    reflexivity.
  - unfold code_vendor.
    change (L "HVDC-ADOPT-" ++ rest)
      with (L "HVDC" ++ "-"%char :: (L "ADOPT" ++ "-"%char :: rest)).
    rewrite split_on_app, (split_on_app _ (L "ADOPT")) by (vm_compute; intuition discriminate).
    reflexivity.
Qed.

Lemma code_vendor_second_segment_witness :
  code_vendor (L "HVDC-" ++ L "DAS" ++ L "-" ++ L "HMU-MOSB-0164") = Val (Some (L "Das"))
  /\ code_vendor (L "HVDC-ADOPT-" ++ L "HMU-MOSB-0164") = Val (Some (L "Adopt")).
Proof.
  apply (code_vendor_second_segment (L "DAS") (L "HMU-MOSB-0164")).
  vm_compute; intuition discriminate.
Defined.

(** * The bounds of the score, and [fuzzy_contains] *)

(** ** The matching blocks do not overlap *)

Lemma scan_row_cols (i blo bhi : nat) (j2len : dict) :
  (forall x, dget j2len x <= x + 1 - blo) ->
  forall (js : list nat) (new : dict) (best : block),
    (forall x, dget new x <= x + 1 - blo) ->
    in_cols blo bhi best ->
    (forall x, dget (fst (scan_row i blo bhi j2len js new best)) x <= x + 1 - blo)
    /\ in_cols blo bhi (snd (scan_row i blo bhi j2len js new best)).
Proof.
  intros P js; induction js as [|j js IH]; intros new best N B; simpl.
  - now split.
  - destruct (Nat.ltb_spec j blo) as [Hlo | Hlo]; [now apply IH|].
    destruct (Nat.leb_spec bhi j) as [Hhi | Hhi]; [now split|].
    assert (K : get_prev j2len j + 1 <= j + 1 - blo).
    { destruct j as [|j]; unfold get_prev; [lia | specialize (P j); lia]. }
    destruct best as [[bi bj] bs].
    apply IH.
    + intros x; simpl; destruct (Nat.eqb_spec j x) as [<-|]; auto.
    + destruct (bs <? get_prev j2len j + 1); [|exact B].
      unfold in_cols; simpl; lia.
Qed.

Lemma scan_rows_cols (a b : str) (blo bhi : nat) (rows : list nat) :
  forall (j2len : dict) (best : block),
    (forall x, dget j2len x <= x + 1 - blo) ->
    in_cols blo bhi best ->
    in_cols blo bhi (scan_rows a b blo bhi rows j2len best).
Proof.
  induction rows as [|r rows IH]; intros j2len best P B; cbn [scan_rows]; [exact B|].
  set (js := match nth_error a r with Some c => b2j b c | None => [] end).
  assert (N0 : forall x, dget [] x <= x + 1 - blo) by (intros; simpl; lia).
  destruct (scan_row_cols r blo bhi j2len P js [] best N0 B) as [N1 B1].
  destruct (scan_row r blo bhi j2len js [] best) as [new best'].
  cbn [fst snd] in N1, B1; now apply IH.
Qed.

Lemma extend_left_cols (want : bool) (a b : str) (alo blo bhi fuel : nat) :
  forall best, in_cols blo bhi best ->
               in_cols blo bhi (extend_left want a b alo blo fuel best).
Proof.
  induction fuel as [|fuel IH]; intros [[bi bj] bs] B; cbn [extend_left]; [exact B|].
  destruct (alo <? bi); simpl andb; [|exact B].
  destruct (Nat.ltb_spec blo bj); simpl andb; [|exact B].
  destruct (junk_is want (nth_error b (bj - 1))
            && same_elt (nth_error a (bi - 1)) (nth_error b (bj - 1))); [|exact B].
  apply IH; unfold in_cols in *; simpl in *; lia.
Qed.

Lemma extend_right_cols (want : bool) (a b : str) (blo ahi bhi fuel : nat) :
  forall best, in_cols blo bhi best ->
               in_cols blo bhi (extend_right want a b ahi bhi fuel best).
Proof.
  induction fuel as [|fuel IH]; intros [[bi bj] bs] B; cbn [extend_right]; [exact B|].
  destruct (bi + bs <? ahi); simpl andb; [|exact B].
  destruct (Nat.ltb_spec (bj + bs) bhi); simpl andb; [|exact B].
  destruct (junk_is want (nth_error b (bj + bs))
            && same_elt (nth_error a (bi + bs)) (nth_error b (bj + bs))); [|exact B].
  apply IH; unfold in_cols in *; simpl in *; lia.
Qed.

Lemma find_longest_match_cols (a b : str) (alo ahi blo bhi : nat) :
  blo <= bhi -> in_cols blo bhi (find_longest_match a b alo ahi blo bhi).
Proof.
  intros H; unfold find_longest_match.
  apply extend_right_cols, extend_left_cols, extend_right_cols, extend_left_cols.
  apply scan_rows_cols; [intros; simpl; lia | split; simpl; lia].
Qed.

Lemma sum_sizes_from (blocks : list block) (n : nat) :
  fold_left (fun acc x => acc + snd x) blocks n = n + sum_sizes blocks.
Proof.
  unfold sum_sizes; revert n; induction blocks as [|x l IH]; intros n; simpl; [lia|].
  rewrite (IH (n + snd x)), (IH (snd x)); lia.
Qed.

Lemma sum_sizes_cons (x : block) (blocks : list block) :
  sum_sizes (x :: blocks) = snd x + sum_sizes blocks.
Proof. unfold sum_sizes at 1; simpl; now rewrite sum_sizes_from. Qed.

Lemma sum_sizes_app (l1 l2 : list block) :
  sum_sizes (l1 ++ l2) = sum_sizes l1 + sum_sizes l2.
Proof.
  induction l1 as [|x l1 IH]; simpl; [reflexivity|].
  rewrite !sum_sizes_cons, IH; lia.
Qed.

Lemma match_queue_sizes (a b : str) (fuel : nat) :
  forall queue blocks r,
    ranges_ok queue ->
    match_queue a b fuel queue blocks = Some r ->
    sum_sizes r <= sum_sizes blocks + span_a queue
    /\ sum_sizes r <= sum_sizes blocks + span_b queue.
Proof.
  induction fuel as [|fuel IH]; intros queue blocks r Hok.
  - destruct queue as [|[[[alo ahi] blo] bhi] queue]; simpl; [|discriminate].
    intros [= <-]; lia.
  - destruct queue as [|[[[alo ahi] blo] bhi] queue]; [simpl; intros [= <-]; lia|].
    cbn [match_queue].
    inversion Hok as [|? ? Hq Hrest]; subst; simpl in Hq; destruct Hq as [Ha Hb].
    pose proof (find_longest_match_rows a b alo ahi blo bhi Ha) as Ra.
    pose proof (find_longest_match_cols a b alo ahi blo bhi Hb) as Rb.
    destruct (find_longest_match a b alo ahi blo bhi) as [[i j] k].
    unfold in_rows in Ra; unfold in_cols in Rb; simpl in Ra, Rb.
    destruct (Nat.eqb_spec k 0) as [->|Hk].
    + intros H; destruct (IH _ _ _ Hrest H); simpl; lia.
    + intros H; apply IH in H.
      * rewrite sum_sizes_app, sum_sizes_cons in H.
        change (sum_sizes []) with 0 in H; simpl snd in H.
        destruct ((i + k <? ahi) && (j + k <? bhi));
          destruct ((alo <? i) && (blo <? j)); simpl in H |- *; lia.
      * destruct ((i + k <? ahi) && (j + k <? bhi));
          destruct ((alo <? i) && (blo <? j));
          repeat (constructor; [lia|]); exact Hrest.
Qed.

Lemma insert_block_perm (x : block) (l : list block) :
  Permutation (insert_block x l) (x :: l).
Proof.
  induction l as [|y l IH]; simpl; [reflexivity|].
  destruct (block_leb x y); [reflexivity|].
  rewrite IH; apply perm_swap.
Qed.

Lemma sort_blocks_perm (l : list block) : Permutation (sort_blocks l) l.
Proof.
  induction l as [|x l IH]; simpl; [reflexivity|].
  rewrite insert_block_perm; now constructor.
Qed.

Lemma sum_sizes_perm (l1 l2 : list block) :
  Permutation l1 l2 -> sum_sizes l1 = sum_sizes l2.
Proof.
  induction 1; rewrite ?sum_sizes_cons; try lia; reflexivity.
Qed.

Lemma collapse_sizes (blocks : list block) :
  forall cur acc,
    sum_sizes (collapse blocks cur acc) = sum_sizes acc + snd cur + sum_sizes blocks.
Proof.
  induction blocks as [|[[i2 j2] k2] blocks IH]; intros [[i1 j1] k1] acc; cbn [collapse].
  - change (sum_sizes []) with 0; simpl snd.
    destruct (Nat.eqb_spec k1 0) as [->|]; [lia|].
    rewrite sum_sizes_app, sum_sizes_cons; change (sum_sizes []) with 0; simpl; lia.
  - rewrite sum_sizes_cons; simpl snd.
    destruct ((i1 + k1 =? i2) && (j1 + k1 =? j2)); rewrite IH; simpl snd; [lia|].
    destruct (Nat.eqb_spec k1 0) as [->|]; [lia|].
    rewrite sum_sizes_app, sum_sizes_cons; change (sum_sizes []) with 0; simpl; lia.
Qed.

Lemma get_matching_blocks_sizes (a b : str) :
  exists blocks, get_matching_blocks a b = Some blocks
                 /\ sum_sizes blocks <= length a /\ sum_sizes blocks <= length b.
Proof.
  destruct (get_matching_blocks_finishes a b) as [blocks E]; exists blocks.
  split; [exact E|]; revert E; unfold get_matching_blocks.
  destruct (match_queue a b (S (2 * length a)) [(0, length a, 0, length b)] [])
    as [found|] eqn:Q; [|discriminate].
  intros [= <-].
  apply match_queue_sizes in Q; [|repeat constructor; lia].
  change (sum_sizes []) with 0 in Q; simpl in Q.
  rewrite sum_sizes_app, collapse_sizes, (sum_sizes_perm _ _ (sort_blocks_perm found)).
  rewrite sum_sizes_cons; change (sum_sizes []) with 0; simpl; lia.
Qed.

(** ** Floats between 0.0 and 1.0 *)

Local Open Scope Z_scope.

Lemma div_half_even_bounds (n d N : Z) :
  0 < d -> 0 <= n -> n <= d * N ->
  0 <= Float.div_half_even n d <= N.
Proof.
  intros Hd Hn HN; unfold Float.div_half_even; cbv zeta.
  pose proof (Z.div_mod n d ltac:(lia)) as E.
  pose proof (Z.mod_pos_bound n d Hd) as [R0 R1].
  assert (Q0 : 0 <= n / d) by (apply Z.div_pos; lia).
  assert (QN : n / d <= N).
  { apply Z.div_le_upper_bound; [lia | exact HN]. }
  assert (Q1 : n / d = N -> n mod d = 0) by nia.
  destruct (Z.compare_spec (2 * (n mod d)) d) as [C | C | C].
  - destruct (Z.even (n / d)); [lia|].
    destruct (Z.eq_dec (n / d) N) as [EN|]; [|lia].
    specialize (Q1 EN); lia.
  - lia.
  - destruct (Z.eq_dec (n / d) N) as [EN|]; [|lia].
    specialize (Q1 EN); lia.
Qed.

Lemma fdiv_unit (p q : Z) : 0 < p -> p <= q -> unit_float (Float.fdiv p q).
Proof.
  intros Hp Hq; unfold Float.fdiv.
  assert (L : Z.log2 p <= Z.log2 q) by (apply Z.log2_le_mono; lia).
  set (e0 := Z.log2 p - Z.log2 q - 52).
  assert (He0 : e0 <= -52) by (unfold e0; lia).
  assert (S : forall e, e <= -52 ->
                Float.scaled p q e = (p * 2 ^ (- e), q)).
  { intros e He; unfold Float.scaled.
    destruct (Z.leb_spec 0 e); [lia | reflexivity]. }
  rewrite (S e0 He0).
  set (e := if p * 2 ^ (- e0) / q <? 2 ^ 52 then e0 - 1 else e0).
  assert (He : e <= -52) by (unfold e; destruct (_ <? _); lia).
  rewrite (S e He).
  assert (P : 0 < 2 ^ (- e)) by (apply Z.pow_pos_nonneg; lia).
  destruct (div_half_even_bounds (p * 2 ^ (- e)) q (2 ^ (- e))) as [M0 M1];
    [lia | nia | nia |].
  destruct (Z.eqb_spec (Float.div_half_even (p * 2 ^ (- e)) q) (2 ^ 53)) as [E | E];
    unfold unit_float; cbn [Float.mant Float.expo].
  - rewrite E in M1.
    assert (53 <= - e).
    { destruct (Z.le_gt_cases 53 (- e)) as [|G]; [assumption|].
      assert (2 ^ (- e) < 2 ^ 53) by (apply Z.pow_lt_mono_r; lia). lia. }
    repeat split; [lia | lia |].
    apply Z.pow_le_mono_r; lia.
  - repeat split; [exact M0 | lia | exact M1].
Qed.

Lemma round4_unit (x : Float.float) : unit_float x -> unit_float (Float.round4 x).
Proof.
  intros [M0 [E0 M1]]; unfold Float.round4, Float.scaled.
  destruct (Z.leb_spec 0 (- Float.expo x)); [|lia].
  assert (P : 0 < 2 ^ (- Float.expo x)) by (apply Z.pow_pos_nonneg; lia).
  destruct (div_half_even_bounds (Float.mant x * 10000) (1 * 2 ^ (- Float.expo x)) 10000)
    as [T0 T1]; [lia | lia | nia |].
  destruct (Z.eqb_spec (Float.div_half_even (Float.mant x * 10000)
                          (1 * 2 ^ (- Float.expo x))) 0) as [E | E].
  - unfold unit_float, Float.zero; simpl; lia.
  - apply fdiv_unit; lia.
Qed.

Lemma unit_float_bounds (x : Float.float) :
  unit_float x ->
  float_leb Float.zero x = true /\ float_leb x (Float.fdiv 1 1) = true.
Proof.
  intros [M0 [E0 M1]]; split; unfold float_leb.
  - apply Z.leb_le; unfold Float.zero; cbn [Float.mant Float.expo].
    assert (0 <= 2 ^ (Float.expo x - Z.min 0 (Float.expo x)))
      by (apply Z.pow_nonneg; lia).
    nia.
  - change (Float.fdiv 1 1) with (Float.Double (2 ^ 52) (-52)).
    apply Z.leb_le; cbn [Float.mant Float.expo].
    destruct (Z.le_gt_cases (Float.expo x) (-52)) as [H | H].
    + rewrite Z.min_l by lia; rewrite Z.sub_diag, Z.mul_1_r.
      rewrite <- Z.pow_add_r by lia.
      replace (52 + (-52 - Float.expo x)) with (- Float.expo x) by lia; exact M1.
    + rewrite Z.min_r by lia; rewrite Z.sub_diag, Z.mul_1_r.
      replace (2 ^ 52) with (2 ^ (- Float.expo x) * 2 ^ (Float.expo x - -52)).
      * apply Z.mul_le_mono_nonneg_r; [apply Z.pow_nonneg; lia | exact M1].
      * rewrite <- Z.pow_add_r by lia. f_equal; lia.
Qed.

Local Close Scope Z_scope.

Lemma calculate_ratio_unit (matches length : nat) :
  2 * matches <= length -> unit_float (calculate_ratio matches length).
Proof.
  intros H; unfold calculate_ratio.
  destruct (Nat.eqb_spec length 0); [apply fdiv_unit; lia|].
  destruct (Nat.eqb_spec matches 0).
  - unfold unit_float, Float.zero; simpl; lia.
  - apply fdiv_unit; lia.
Qed.

Lemma score_similarity_unit (left right : str) :
  exists x, score_similarity left right = Some x /\ unit_float x.
Proof.
  unfold score_similarity, ratio.
  destruct (get_matching_blocks_sizes (normalize_subject (Some left))
              (normalize_subject (Some right))) as [blocks [-> [Ha Hb]]].
  eexists; split; [reflexivity|].
  apply round4_unit, calculate_ratio_unit; lia.
Qed.

(** X7.  [score_similarity] returns a float between 0.0 and 1.0 for every pair of
    strings. *)
Theorem score_similarity_bounds (left right : str) :
  exists x, score_similarity left right = Some x
            /\ float_leb Float.zero x = true
            /\ float_leb x (Float.fdiv 1 1) = true.
Proof.
  destruct (score_similarity_unit left right) as [x [E U]].
  exists x; split; [exact E | now apply unit_float_bounds].
Qed.

(** ** [fuzzy_contains] *)

Lemma float_leb_at (x y : Float.float) (e : Z) :
  (e <= Float.expo x)%Z -> (e <= Float.expo y)%Z ->
  float_leb x y
  = (Float.mant x * 2 ^ (Float.expo x - e) <=? Float.mant y * 2 ^ (Float.expo y - e))%Z.
Proof.
  intros Hx Hy; unfold float_leb.
  set (m := Z.min (Float.expo x) (Float.expo y)).
  assert (Hm : (e <= m)%Z) by (unfold m; lia).
  assert (Mx : (m <= Float.expo x)%Z) by (unfold m; lia).
  assert (My : (m <= Float.expo y)%Z) by (unfold m; lia).
  replace (Float.expo x - e)%Z with ((Float.expo x - m) + (m - e))%Z by lia.
  replace (Float.expo y - e)%Z with ((Float.expo y - m) + (m - e))%Z by lia.
  rewrite !Z.pow_add_r, !Z.mul_assoc by lia.
  assert (P : (0 < 2 ^ (m - e))%Z) by (apply Z.pow_pos_nonneg; lia).
  apply eq_true_iff_eq; rewrite !Z.leb_le.
  apply Z.mul_le_mono_pos_r; exact P.
Qed.

Lemma float_leb_trans (x y z : Float.float) :
  float_leb x y = true -> float_leb y z = true -> float_leb x z = true.
Proof.
  set (e := Z.min (Float.expo x) (Z.min (Float.expo y) (Float.expo z))).
  rewrite (float_leb_at x y e), (float_leb_at y z e), (float_leb_at x z e)
    by (unfold e; lia).
  rewrite !Z.leb_le; lia.
Qed.

Lemma fuzzy_contains_finishes (term : str) (candidates : list str)
    (threshold : Float.float) :
  exists found, fuzzy_contains term candidates threshold = Some found.
Proof.
  induction candidates as [|c cs [found IH]]; simpl; [now eexists|].
  destruct (score_similarity_finishes term c) as [x ->].
  destruct (float_leb threshold x); [now eexists | now exists found].
Qed.

(** X8.  [fuzzy_contains] returns for every input; over the candidates of two
    lists it is the disjunction of its results on each. *)
Theorem fuzzy_contains_app (term : str) (xs ys : list str) (threshold : Float.float) :
  exists fx fy,
    fuzzy_contains term xs threshold = Some fx
    /\ fuzzy_contains term ys threshold = Some fy
    /\ fuzzy_contains term (xs ++ ys) threshold = Some (fx || fy).
Proof.
  destruct (fuzzy_contains_finishes term ys threshold) as [fy Ey].
  induction xs as [|c cs [fx [fy' [E1 [E2 E3]]]]]; simpl.
  - exists false, fy; auto.
  - rewrite Ey in E2; injection E2 as <-.
    destruct (score_similarity_finishes term c) as [x ->].
    destruct (float_leb threshold x).
    + exists true, fy; auto.
    + exists fx, fy; auto.
Qed.

(** X9.  A term is contained in every list that holds a candidate equal to it up
    to case and surrounding white space, for every threshold at most 1.0. *)
Theorem fuzzy_contains_same (term candidate : str) (candidates : list str)
    (threshold : Float.float) :
  float_leb threshold (Float.fdiv 1 1) = true ->
  In candidate candidates ->
  normalize_subject (Some candidate) = normalize_subject (Some term) ->
  fuzzy_contains term candidates threshold = Some true.
Proof.
  intros Ht Hin En; induction candidates as [|c cs IH]; [destruct Hin|].
  simpl; destruct (score_similarity_finishes term c) as [x Ex]; rewrite Ex.
  destruct (float_leb threshold x) eqn:Hx; [reflexivity|].
  destruct Hin as [-> | Hin]; [|now apply IH].
  unfold score_similarity in Ex; rewrite En, ratio_self in Ex.
  assert (R : Float.round4 (Float.Double (2 ^ 52) (-52)) = Float.fdiv 1 1)
    by (vm_compute; reflexivity).
  cbn [option_map] in Ex; rewrite R in Ex; injection Ex as <-; congruence.
Qed.

Lemma fuzzy_contains_same_witness :
  fuzzy_contains (L "HVDC") [L "agi"; L " hvdc "] default_threshold = Some true.
Proof.
  apply (fuzzy_contains_same (L "HVDC") (L " hvdc ")).
  - vm_compute; reflexivity.
  - right; left; reflexivity.
  - vm_compute; reflexivity.
Defined.

(** X10.  With a threshold above 1.0 nothing is contained. *)
Theorem fuzzy_contains_above_one (term : str) (candidates : list str)
    (threshold : Float.float) :
  float_leb threshold (Float.fdiv 1 1) = false ->
  fuzzy_contains term candidates threshold = Some false.
Proof.
  intros Ht; induction candidates as [|c cs IH]; simpl; [reflexivity|].
  destruct (score_similarity_unit term c) as [x [-> U]].
  destruct (unit_float_bounds x U) as [_ H1].
  destruct (float_leb threshold x) eqn:Hx; [|exact IH].
  rewrite (float_leb_trans _ _ _ Hx H1) in Ht; discriminate.
Qed.

Lemma fuzzy_contains_above_one_witness :
  fuzzy_contains (L "hvdc") [L "hvdc"] (Float.fdiv 3 2) = Some false.
Proof.
  apply (fuzzy_contains_above_one (L "hvdc") [L "hvdc"] (Float.fdiv 3 2)).
  vm_compute; reflexivity.
Defined.

(** * Files, settings and the other extractors *)

(** ** [chunked] *)

Section Chunked.

Context {T : Type}.
Variable size : Z.

Lemma chunked_from_concat (items batch : list T) :
  concat (chunked_from size items batch) = batch ++ items.
Proof.
  revert batch; induction items as [|x items IH]; intros batch; simpl.
  - destruct batch; simpl; [reflexivity | now rewrite !app_nil_r].
  - destruct (size <=? _)%Z; simpl; rewrite IH; now rewrite <- app_assoc.
Qed.

Lemma chunked_from_non_empty (items batch : list T) :
  Forall (fun c => c <> []) (chunked_from size items batch).
Proof.
  revert batch; induction items as [|x items IH]; intros batch; simpl.
  - destruct batch; constructor; [discriminate | constructor].
  - destruct (size <=? _)%Z; [|apply IH].
    constructor; [destruct batch; discriminate | apply IH].
Qed.

Lemma chunked_from_sizes (items batch : list T) :
  (Z.of_nat (length batch) < size)%Z ->
  Forall (fun c => (Z.of_nat (length c) <= size)%Z) (chunked_from size items batch)
  /\ Forall (fun c => Z.of_nat (length c) = size)
       (removelast (chunked_from size items batch)).
Proof.
  revert batch; induction items as [|x items IH]; intros batch Hb; simpl.
  - destruct batch; simpl; split; repeat constructor; simpl in *; lia.
  - assert (E : length (batch ++ [x]) = S (length batch))
      by (rewrite length_app; simpl; lia).
    destruct (Z.leb_spec size (Z.of_nat (length (batch ++ [x])))) as [H | H].
    + destruct (IH [] ltac:(simpl; lia)) as [I1 I2].
      split; [constructor; [lia | exact I1]|].
      cbn [removelast].
      destruct (chunked_from size items []); [constructor|].
      constructor; [lia | exact I2].
    + apply IH; lia.
Qed.

Lemma chunked_from_singletons (items : list T) :
  (size <= 1)%Z -> chunked_from size items [] = map (fun x => [x]) items.
Proof.
  intros H; induction items as [|x items IH]; simpl; [reflexivity|].
  destruct (Z.leb_spec size 1); [now rewrite IH | lia].
Qed.

End Chunked.

(** X11.  The chunks of [chunked], put end to end, are the items in their order,
    and no chunk is empty, whatever the size. *)
Theorem chunked_concat {T : Type} (items : list T) (size : Z) :
  concat (chunked items size) = items
  /\ Forall (fun c => c <> []) (chunked items size).
Proof.
  split; [apply (chunked_from_concat size items []) | apply chunked_from_non_empty].
Qed.

(** X12.  For a size of at least 1, no chunk of [chunked] is longer than the size
    and every chunk but the last has exactly that length. *)
Theorem chunked_sizes {T : Type} (items : list T) (size : Z) :
  (1 <= size)%Z ->
  Forall (fun c => (Z.of_nat (length c) <= size)%Z) (chunked items size)
  /\ Forall (fun c => Z.of_nat (length c) = size) (removelast (chunked items size)).
Proof. intros H; apply chunked_from_sizes; simpl; lia. Qed.

Lemma chunked_sizes_witness :
  Forall (fun c => (Z.of_nat (length c) <= 3)%Z) (chunked [1; 2; 3; 4; 5; 6; 7] 3)
  /\ Forall (fun c => Z.of_nat (length c) = 3%Z)
       (removelast (chunked [1; 2; 3; 4; 5; 6; 7] 3)).
Proof. apply (chunked_sizes [1; 2; 3; 4; 5; 6; 7] 3); lia. Defined.

(** X13.  For a size of 1 or less, zero and negative sizes included, [chunked]
    yields every item in a chunk of its own. *)
Theorem chunked_small_size {T : Type} (items : list T) (size : Z) :
  (size <= 1)%Z -> chunked items size = map (fun x => [x]) items.
Proof. apply chunked_from_singletons. Qed.

Lemma chunked_small_size_witness : chunked [1; 2; 3] (-2) = [[1]; [2]; [3]].
Proof. apply (chunked_small_size [1; 2; 3] (-2)); lia. Defined.

(** ** [iter_email_files] *)

Lemma set_update_nil_in (x : str) (xs : list str) :
  set_in x (set_update [] xs) = set_in x xs.
Proof.
  apply eq_true_iff_eq; rewrite !set_in_In, set_update_In; simpl; tauto.
Qed.

Lemma iter_from_step (settings : HVDCSettings) (c : candidate)
    (rest : list candidate) (yielded : Z) :
  let allowed := set_update [] (map lower (allowed_extensions settings)) in
  let blocked := set_update [] (map lower (outlook_extensions settings)) in
  iter_from allowed blocked (max_files settings) (c :: rest) yielded
  = if qualifies settings c
    then resolved c ::
           match max_files settings with
           | Some m => if (m <=? yielded + 1)%Z then []
                       else iter_from allowed blocked (max_files settings) rest
                              (yielded + 1)
           | None => iter_from allowed blocked (max_files settings) rest (yielded + 1)
           end
    else iter_from allowed blocked (max_files settings) rest yielded.
Proof.
  cbv zeta; cbn [iter_from]; unfold qualifies; rewrite !set_update_nil_in.
  destruct (is_file c); [|reflexivity].
  destruct (set_in (lower (suffix c)) (map lower (outlook_extensions settings)));
    [reflexivity|].
  destruct (set_in (lower (suffix c)) (map lower (allowed_extensions settings)));
    reflexivity.
Qed.

Lemma iter_from_spec (settings : HVDCSettings) (listing : list candidate) :
  forall yielded : Z,
    iter_from (set_update [] (map lower (allowed_extensions settings)))
              (set_update [] (map lower (outlook_extensions settings)))
              (max_files settings) listing yielded
    = match max_files settings with
      | Some m => firstn (Z.to_nat (Z.max (m - yielded) 1))
                    (map resolved (filter (qualifies settings) listing))
      | None => map resolved (filter (qualifies settings) listing)
      end.
Proof.
  induction listing as [|c listing IH]; intros yielded.
  - simpl; destruct (max_files settings); [now rewrite firstn_nil | reflexivity].
  - pose proof (iter_from_step settings c listing yielded) as Hs; cbv zeta in Hs.
    rewrite Hs; cbn [filter].
    destruct (qualifies settings c); [|apply IH].
    cbn [map]; destruct (max_files settings) as [m|] eqn:M.
    + destruct (Z.leb_spec m (yielded + 1)) as [H | H].
      * replace (Z.to_nat (Z.max (m - yielded) 1)) with 1 by lia; reflexivity.
      * rewrite IH.
        replace (Z.to_nat (Z.max (m - yielded) 1))
          with (S (Z.to_nat (Z.max (m - (yielded + 1)) 1))) by lia.
        reflexivity.
    + now rewrite IH.
Qed.

(** X14.  [iter_email_files] yields, in the order of the listing, the files whose
    suffix in lower case is allowed and not blocked (a blocked suffix wins
    over an allowed one); with [max_files] set it stops after that many, and
    after the first for a limit of zero or less. *)
Theorem iter_email_files_filter (listing : list candidate) (settings : HVDCSettings) :
  iter_email_files listing settings
  = match max_files settings with
    | Some m => firstn (Z.to_nat (Z.max m 1))
                  (map resolved (filter (qualifies settings) listing))
    | None => map resolved (filter (qualifies settings) listing)
    end.
Proof.
  unfold iter_email_files; rewrite iter_from_spec.
  destruct (max_files settings); [now rewrite Z.sub_0_r | reflexivity].
Qed.

(** ** [merge_extensions] *)

Lemma strictly_sorted_unique (l1 l2 : list str) :
  StronglySorted str_lt l1 -> StronglySorted str_lt l2 ->
  (forall x, In x l1 <-> In x l2) -> l1 = l2.
Proof.
  intros S1; revert l2; induction S1 as [|x l1 S1 IH F1]; intros l2 S2 H.
  - destruct l2 as [|y l2]; [reflexivity|].
    destruct (proj2 (H y) (or_introl eq_refl)).
  - destruct S2 as [|y l2 S2 F2]; [destruct (proj1 (H x) (or_introl eq_refl))|].
    rewrite Forall_forall in F1, F2.
    assert (E : x = y).
    { destruct (proj1 (H x) (or_introl eq_refl)) as [E | Hx]; [now symmetry|].
      destruct (proj2 (H y) (or_introl eq_refl)) as [E | Hy]; [exact E|].
      pose proof (F1 _ Hy) as A; pose proof (F2 _ Hx) as B.
      unfold str_lt in *; rewrite (str_ltb_asym _ _ A) in B; discriminate. }
    subst y; f_equal; apply IH; [exact S2|].
    intros z; split; intros Hz.
    + destruct (proj1 (H z) (or_intror Hz)) as [E | Hz']; [|exact Hz'].
      subst z; pose proof (F1 _ Hz) as A; unfold str_lt in A.
      rewrite str_ltb_irrefl in A; discriminate.
    + destruct (proj2 (H z) (or_intror Hz)) as [E | Hz']; [|exact Hz'].
      subst z; pose proof (F2 _ Hz) as A; unfold str_lt in A.
      rewrite str_ltb_irrefl in A; discriminate.
Qed.

(** [sorted] of a set depends on its members only. *)
Lemma sorted_set_unique (s1 s2 : pyset) :
  NoDup s1 -> NoDup s2 -> (forall x, In x s1 <-> In x s2) -> sorted s1 = sorted s2.
Proof.
  intros N1 N2 H; apply strictly_sorted_unique.
  - apply sorted_strict; [now apply sorted_NoDup | apply sorted_sorted].
  - apply sorted_strict; [now apply sorted_NoDup | apply sorted_sorted].
  - intros x; split; intros Hx.
    + apply (Permutation_in _ (Permutation_sym (sorted_perm s2))), H.
      exact (Permutation_in _ (sorted_perm s1) Hx).
    + apply (Permutation_in _ (Permutation_sym (sorted_perm s1))), H.
      exact (Permutation_in _ (sorted_perm s2) Hx).
Qed.

Lemma merge_extensions_eq (primary extra : list str) :
  merge_extensions primary extra = sorted (set_update [] (map dotted (primary ++ extra))).
Proof.
  unfold merge_extensions; now rewrite fold_set_add_map, map_app, set_update_app.
Qed.

Lemma merge_extensions_In (primary extra : list str) (x : str) :
  In x (merge_extensions primary extra)
  <-> exists ext, (In ext primary \/ In ext extra) /\ x = dotted ext.
Proof.
  rewrite merge_extensions_eq; split.
  - intros H; apply (Permutation_in _ (sorted_perm _)) in H.
    apply set_update_In in H; destruct H as [[] | H].
    apply in_map_iff in H; destruct H as [ext [<- H]].
    exists ext; split; [now apply in_app_iff | reflexivity].
  - intros [ext [H ->]].
    apply (Permutation_in _ (Permutation_sym (sorted_perm _))).
    apply set_update_In; right; apply in_map, in_app_iff, H.
Qed.

Lemma starts_with_dot (s : str) : starts_with (L ".") s = true -> exists t, s = "."%char :: t.
Proof.
  destruct s as [|c t]; simpl; [discriminate|].
  rewrite andb_true_r; intros H; apply ch_eqb_eq in H; subst c; now exists t.
Qed.

Lemma dotted_form (ext : str) :
  starts_with (L ".") (dotted ext) = true
  /\ forallb (fun c => negb (is_upper c)) (dotted ext) = true.
Proof.
  assert (Lw : forall s, forallb (fun c => negb (is_upper c)) (lower s) = true).
  { intros s; apply forallb_forall; intros c Hc; apply in_map_iff in Hc.
    destruct Hc as [x [<- _]]; now rewrite to_lower_not_upper. }
  unfold dotted; destruct (starts_with (L ".") ext) eqn:E.
  - split; [|apply Lw].
    destruct (starts_with_dot _ E) as [t ->]; reflexivity.
  - split; [reflexivity | simpl; apply Lw].
Qed.

Lemma dotted_fixed (x : str) :
  starts_with (L ".") x = true ->
  forallb (fun c => negb (is_upper c)) x = true -> dotted x = x.
Proof.
  intros H1 H2; unfold dotted; rewrite H1; unfold lower.
  rewrite <- (map_id x) at 2; apply map_ext_in; intros c Hc.
  rewrite forallb_forall in H2; specialize (H2 c Hc).
  unfold to_lower; destruct (is_upper c); [discriminate | reflexivity].
Qed.

Lemma merge_extensions_shape (primary extra : list str) :
  Forall (fun x => starts_with (L ".") x = true
                   /\ forallb (fun c => negb (is_upper c)) x = true)
         (merge_extensions primary extra)
  /\ StronglySorted str_lt (merge_extensions primary extra).
Proof.
  split.
  - rewrite Forall_forall; intros x Hx.
    apply merge_extensions_In in Hx; destruct Hx as [ext [_ ->]]; apply dotted_form.
  - rewrite merge_extensions_eq; apply sorted_strict.
    + apply sorted_NoDup, set_update_NoDup; constructor.
    + apply sorted_sorted.
Qed.

(** X15.  Every extension [merge_extensions] returns starts with a dot and has no
    upper-case letter; the result is strictly ascending, so without
    duplicates. *)
Theorem merge_extensions_form (primary extra : list str) :
  Forall (fun x => starts_with (L ".") x = true
                   /\ forallb (fun c => negb (is_upper c)) x = true)
         (merge_extensions primary extra)
  /\ StronglySorted str_lt (merge_extensions primary extra).
Proof. apply merge_extensions_shape. Qed.

(** X16.  [merge_extensions] does not depend on which list an extension comes
    from, and merging its own result again changes nothing. *)
Theorem merge_extensions_symmetric (primary extra : list str) :
  merge_extensions primary extra = merge_extensions extra primary
  /\ merge_extensions (merge_extensions primary extra) [] = merge_extensions primary extra.
Proof.
  split.
  - rewrite !merge_extensions_eq; apply sorted_set_unique;
      try (apply set_update_NoDup; constructor).
    intros x; rewrite !set_update_In, !map_app, !in_app_iff; tauto.
  - apply strictly_sorted_unique; try apply merge_extensions_shape.
    intros x; rewrite (merge_extensions_In (merge_extensions primary extra) []).
    split.
    + intros [ext [[H | []] ->]].
      destruct (merge_extensions_shape primary extra) as [F _].
      rewrite Forall_forall in F; destruct (F _ H) as [F1 F2].
      now rewrite dotted_fixed.
    + intros H; exists x; split; [now left|].
      destruct (merge_extensions_shape primary extra) as [F _].
      rewrite Forall_forall in F; destruct (F _ H) as [F1 F2].
      now rewrite dotted_fixed.
Qed.

(** ** [extract_project_phase] *)

Lemma starts_with_iff (p s : str) :
  starts_with p s = true <-> exists post, s = p ++ post.
Proof.
  revert s; induction p as [|x p IH]; intros s; simpl.
  - split; [intros _; now exists s | reflexivity].
  - destruct s as [|c s]; [split; [discriminate | intros [post H]; discriminate]|].
    rewrite andb_true_iff, ch_eqb_eq, IH; split.
    + intros [-> [post ->]]; now exists post.
    + intros [post H]; injection H as -> ->; split; [reflexivity | now exists post].
Qed.

Lemma contains_iff (sub s : str) :
  contains sub s = true <-> exists pre post, s = pre ++ sub ++ post.
Proof.
  induction s as [|c s IH]; simpl; rewrite orb_true_iff, starts_with_iff.
  - split.
    + intros [[post H] | H]; [|discriminate]. now exists [], post.
    + intros [pre [post H]]; left.
      destruct pre; simpl in H; [now exists post | discriminate].
  - rewrite IH; split.
    + intros [[post H] | [pre [post H]]].
      * now exists [], post.
      * exists (c :: pre), post; simpl; now f_equal.
    + intros [pre [post H]]; destruct pre as [|x pre]; simpl in H.
      * left; now exists post.
      * right; injection H as -> H; now exists pre, post.
Qed.

Lemma contains_trans (a b s : str) :
  contains a b = true -> contains b s = true -> contains a s = true.
Proof.
  rewrite !contains_iff; intros [p1 [q1 ->]] [p2 [q2 ->]].
  exists (p2 ++ p1), (q1 ++ q2); now rewrite <- !app_assoc.
Qed.

Lemma phase_po (subject : str) :
  contains (L "po") (lower subject) = true ->
  extract_project_phase subject = L "procurement".
Proof.
  intros H; unfold extract_project_phase, project_phases; cbn [phase_of].
  replace (existsb _ _) with true; [reflexivity|].
  symmetry; apply existsb_exists; exists (L "PO"); split; [right; now left | exact H].
Qed.

(** X17.  A subject that holds "po" in any case is classified procurement; so is
    every subject that mentions import, export or transport, and the phases
    customs and logistics are never reached through these words. *)
Theorem extract_project_phase_shadowed (subject keyword : str) :
  In keyword [L "po"; L "import"; L "export"; L "transport"; L "report"] ->
  contains keyword (lower subject) = true ->
  extract_project_phase subject = L "procurement".
Proof.
  intros Hk Hc; apply phase_po.
  apply (contains_trans _ keyword); [|exact Hc].
  simpl in Hk; decompose [or] Hk; subst; try reflexivity; contradiction.
Qed.

Lemma extract_project_phase_shadowed_witness :
  extract_project_phase (L "Export clearance at customs") = L "procurement".
Proof.
  apply (extract_project_phase_shadowed _ (L "export")).
  - right; right; now left.
  - vm_compute; reflexivity.
Defined.

(** ** What a group takes *)

Lemma suffix_length (s : str) (o : outcome) :
  (exists pre, s = pre ++ fst o) -> length (fst o) <= length s.
Proof. intros [pre ->]; rewrite length_app; lia. Qed.

Lemma run_shorter (ic : bool) (r : regex) :
  takes_some r = true ->
  forall s c o, In o (run ic r s c) -> length (fst o) < length s.
Proof.
  induction r as [| a | | negate items | r1 IH1 r2 IH2 | greedy lo hi r1 IH1 | k r1 IH1];
    cbn [takes_some run]; try discriminate; intros M s c o.
  - destruct s as [|x t]; [intros []|].
    destruct (lit_match ic a x); [|intros []]; intros [<- | []]; simpl; lia.
  - destruct s as [|x t]; [intros []|].
    destruct (code x =? 10); [intros []|]; intros [<- | []]; simpl; lia.
  - destruct s as [|x t]; [intros []|].
    destruct (xorb negate (set_mem ic items x)); [|intros []];
      intros [<- | []]; simpl; lia.
  - rewrite in_flat_map; intros [o1 [H1 H2]].
    pose proof (suffix_length _ _ (run_suffix _ _ _ _ _ H1)).
    pose proof (suffix_length _ _ (run_suffix _ _ _ _ _ H2)).
    apply orb_true_iff in M; destruct M as [M | M].
    + specialize (IH1 M _ _ _ H1); lia.
    + specialize (IH2 M _ _ _ H2); lia.
  - apply andb_true_iff in M; destruct M as [Hlo M]; apply Nat.leb_le in Hlo.
    intros H; apply rep_run_outcome in H.
    destruct H as [[H0 _] | [fuel' [o1 [H1 H2]]]]; [lia|].
    specialize (IH1 M _ _ _ H1).
    pose proof (suffix_length _ _ (rep_run_suffix _ _ _ _ _ _ _ _ _ H2)); lia.
  - rewrite in_map_iff; intros [o1 [<- H1]]; simpl; eapply IH1; eassumption.
Qed.

Lemma groups_take_sound (ic : bool) (r : regex) :
  groups_take r = true -> groups_sound ic (fun _ v => v <> []) r.
Proof.
  induction r as [| a | | negate items | r1 IH1 r2 IH2 | greedy lo hi r1 IH1 | n r1 IH1];
    cbn [groups_take groups_sound]; intros H; try exact I.
  - apply andb_true_iff in H; destruct H; split; auto.
  - auto.
  - apply andb_true_iff in H; destruct H as [M G]; split; [|auto].
    intros s c o Ho E.
    pose proof (run_shorter ic r1 M _ _ _ Ho) as Hl.
    pose proof (consumed_split s o (run_suffix _ _ _ _ _ Ho)) as Hs.
    rewrite E in Hs; simpl in Hs; rewrite <- Hs in Hl; lia.
Qed.

(** ** [extract_lpo_numbers] *)

(** X18.  Every number [extract_lpo_numbers] returns is the text LPO- followed by
    one or more digits, whichever of the separators (hyphen, white space,
    none) and whichever case the subject used. *)
Theorem extract_lpo_numbers_form (subject : str) :
  Forall (fun e => exists d, e = L "LPO-" ++ d /\ d <> []
                             /\ forallb is_digit d = true)
         (extract_lpo_numbers subject).
Proof.
  unfold extract_lpo_numbers, findall; rewrite map_map, Forall_forall.
  intros e He; apply in_map_iff in He; destruct He as [m [<- Hm]].
  change (groups (rx (Compile lpo_pattern true))) with 1.
  exists (group 1 m); split; [reflexivity|]; split.
  - apply (finditer_group_sound (fun _ v => v <> []) (Compile lpo_pattern true) subject m 0);
      [apply groups_take_sound; vm_compute; reflexivity
      | vm_compute; reflexivity | exact Hm].
  - apply (finditer_group (fun _ => is_digit) (Compile lpo_pattern true) subject m 0);
      [vm_compute; reflexivity | exact Hm].
Qed.

(** ** [extract_case_numbers] *)

Lemma fold_lookup_ok {V X : Type} (d : list (str * V)) (key : str) (v : V)
    (g : V -> list str -> X -> list str) (l : list X) :
  getitem d key = Ok v ->
  forall acc,
    fold_left (fun acc x => a <- acc ;; v' <- getitem d key ;; Ok (g v' a x)) l (Ok acc)
    = Ok (fold_left (g v) l acc).
Proof.
  intros H; rewrite H; induction l as [|x l IH]; intros acc; simpl; [reflexivity|].
  apply IH.
Qed.

Lemma fold_append_new_NoDup {X : Type} (f : X -> str) (l : list X) (acc : list str) :
  NoDup acc -> NoDup (fold_left (fun a x => append_new a (f x)) l acc).
Proof. exact (fold_set_add_NoDup f l acc). Qed.

(** X19.  [extract_case_numbers] never raises, returns the empty list for [None]
    and for the empty subject, and never returns a case number twice. *)
Theorem extract_case_numbers_no_duplicates (subject : option str) :
  exists l, extract_case_numbers subject = Ok l /\ NoDup l
            /\ (subject = None \/ subject = Some [] -> l = []).
Proof.
  destruct subject as [[|c s]|].
  - exists []; split; [reflexivity|]; split; [constructor | reflexivity].
  - unfold extract_case_numbers.
    assert (G1 : exists r, getitem case_patterns (L "pattern1") = Ok r) by (eexists; reflexivity).
    assert (G2 : exists r, getitem case_patterns (L "pattern2") = Ok r) by (eexists; reflexivity).
    assert (G3 : exists r, getitem case_patterns (L "pattern3_outer") = Ok r) by (eexists; reflexivity).
    assert (G4 : exists r, getitem case_patterns (L "pattern3_inner") = Ok r) by (eexists; reflexivity).
    assert (G5 : exists r, getitem case_patterns (L "pattern4") = Ok r) by (eexists; reflexivity).
    assert (G6 : exists r, getitem case_patterns (L "pattern5") = Ok r) by (eexists; reflexivity).
    destruct G1 as [r1 G1], G2 as [r2 G2], G3 as [r3 G3], G4 as [r4 G4], G5 as [r5 G5],
      G6 as [r6 G6].
    rewrite G1; cbn [bind]. rewrite G2; cbn [bind]. rewrite G3; cbn [bind].
    rewrite (fold_lookup_ok case_patterns (L "pattern3_inner") r4
               (fun r3i acc outer_match =>
                  fold_left (fun acc m =>
                      append_new acc (L "HVDC-ADOPT-" ++ upper (item 0 m) ++ L "-" ++ item 1 m))
                    (findall_tuples (Compile r3i true) outer_match) acc) _ G4).
    cbn [bind]. rewrite G5; cbn [bind]. rewrite G6; cbn [bind].
    eexists; split; [reflexivity|]; split; [|intros [H | H]; discriminate].
    apply fold_append_new_NoDup, fold_append_new_NoDup.
    match goal with |- NoDup (fold_left ?f ?l0 ?acc) =>
      assert (I : forall outer a, NoDup a -> NoDup (fold_left f outer a)) end.
    { intros l; induction l as [|x l IH]; intros a Ha; simpl; [exact Ha|].
      apply IH, fold_append_new_NoDup, Ha. }
    apply I, fold_append_new_NoDup, fold_append_new_NoDup; constructor.
  - exists []; split; [reflexivity|]; split; [constructor | reflexivity].
Qed.

(** ** [match_vendor_alias] *)














(** * The folder map *)

Lemma split_on_before (sep : ascii) (s : str) :
  exists rest, split_on sep s = before sep s :: rest.
Proof.
  induction s as [|c s [rest IH]]; simpl; [now exists []|].
  destruct (ch_eqb c sep); [eexists; reflexivity|].
  rewrite IH; eexists; reflexivity.
Qed.

Lemma map_folder_eq (mapping : list folder_entry) (f : folder) :
  map_folder mapping f
  = Val (if folder_is_dir f then mapping ++ [entry_of f] else mapping).
Proof.
  unfold map_folder; destruct (folder_is_dir f); [|reflexivity]; cbn [negb].
  rewrite find_case_codes_eq; cbn [lift bind_res].
  destruct (split_on_before "_" (folder_name f)) as [rest ->].
  reflexivity.
Qed.

Lemma build_folder_map_from (listing : list folder) (mapping : list folder_entry) :
  for_each map_folder listing mapping
  = Val (mapping ++ map entry_of (filter folder_is_dir listing)).
Proof.
  revert mapping; induction listing as [|f l IH]; intros mapping; cbn [for_each filter].
  - now rewrite app_nil_r.
  - rewrite map_folder_eq; cbn [bind_res]; rewrite IH.
    destruct (folder_is_dir f); [|reflexivity].
    now rewrite <- app_assoc.
Qed.

(** X21.  [build_folder_map] never raises.  It returns one entry for each
    directory of the listing, in the listing's order, and none for the other
    entries; the cases of an entry are those [find_case_codes] finds in the
    folder's name, its site is the alias of the name up to its first
    underscore (of the whole name when it has none). *)
Theorem build_folder_map_entries (listing : list folder) :
  exists mapping,
    build_folder_map listing = Val mapping
    /\ map entry_folder mapping = map folder_name (filter folder_is_dir listing)
    /\ map entry_path mapping = map folder_resolved (filter folder_is_dir listing)
    /\ Forall (fun e => find_case_codes (Some (entry_folder e)) = Ok (entry_cases e)
                        /\ match_site_alias (Some (before "_" (entry_folder e)))
                           = Ok (entry_site e)) mapping.
Proof.
  exists (map entry_of (filter folder_is_dir listing)); split; [|split; [|split]].
  - unfold build_folder_map; now rewrite build_folder_map_from.
  - rewrite map_map; reflexivity.
  - rewrite map_map; reflexivity.
  - rewrite Forall_forall; intros e He; apply in_map_iff in He.
    destruct He as [f [<- _]]; split; [apply find_case_codes_eq | reflexivity].
Qed.
